(** * Manifest entry processors of [sdp/processors/modify_manifest/common.py]

    A shallow embedding of the per-entry processors (CombineSources,
    AddConstantFields, DuplicateFields, RenameFields, SplitOnFixedDuration,
    ChangeToRelativePath, RemoveExtraSymbols) and of the command builder of
    CreateTokenizer, followed by the properties proved about them.

    Conventions of the embedding:
    - a Python [str] is the list of its Unicode code points;
    - a manifest entry (a Python [dict]) is a finite map from [str] keys to
      values; in-place mutation of the one dictionary a processor receives
      is threaded as an explicit entry value;
    - numbers are exact rationals ([Q]); Python's floating point rounding is
      not modelled;
    - a raised exception is the [Raise] branch of a small error monad. *)

From Stdlib Require Import QArith Qround Lqa.
From stdpp Require Import gmap strings list fin_maps pretty sorting.

Local Open Scope nat_scope.

(** ** Python values *)

(** A character is a Unicode code point; a Python string is a list of them. *)
Definition char : Set := N.
Abbreviation str := (list char).

(** Literals of ASCII-only Python strings. *)
Definition py (s : string) : str :=
  (λ a : Ascii.ascii, Ascii.N_of_ascii a) <$> String.list_ascii_of_string s.
Arguments py s%_string.

(** The JSON scalars a manifest entry holds. *)
Inductive value : Type :=
  | VStr (s : str)
  | VNum (q : Q)
  | VBool (b : bool).

Abbreviation Entry := (gmap str value).

(** [DataEntry(data=..., metrics=...)] of [sdp.processors.base_processor];
    [metrics] defaults to [None]. *)
Record DataEntry : Type := mkDataEntry {
  data : Entry;
  metrics : option Z
}.

(** ** Exceptions and the error monad *)

Inductive exception : Type :=
  | KeyError (key : str)
  | TypeError
  | AttributeError
  | ZeroDivisionError
  | PathError
  (* ValueError(f"Expected field {field_src} in data_entry {data_entry}
     but there isn't one."): the two interpolated values are kept. *)
  | ValueError (field_src : str) (data_entry : Entry).

Inductive result (A : Type) : Type :=
  | Ok (a : A)
  | Raise (e : exception).
Arguments Ok {A} a.
Arguments Raise {A} e.

(** Sequencing, written [x ← m; k]: the first exception raised propagates. *)
#[global] Instance result_ret : MRet result := λ A a, Ok a.
#[global] Instance result_bind : MBind result := λ A B f m,
  match m with
  | Ok a => f a
  | Raise e => Raise e
  end.
#[global] Instance result_fmap : FMap result := λ A B f m,
  match m with
  | Ok a => Ok (f a)
  | Raise e => Raise e
  end.

(** [data_entry[key]] *)
Definition getitem (data_entry : Entry) (key : str) : result value :=
  match data_entry !! key with
  | Some v => Ok v
  | None => Raise (KeyError key)
  end.

(** The number a value stands for in arithmetic: [bool] is a subclass of
    [int] in Python, a [str] operand of [//] or [-] raises [TypeError]. *)
Definition as_number (v : value) : result Q :=
  match v with
  | VNum q => Ok q
  | VBool b => Ok (if b then 1%Q else 0%Q)
  | VStr _ => Raise TypeError
  end.

(** ** SplitOnFixedDuration *)

Module SplitOnFixedDuration.

Record t : Type := mk {
  segment_duration : Q;
  drop_last : bool;
  drop_text : bool
}.

(** The body shared by the loop and by the remainder branch: a shallow
    copy of the entry with [duration] and [offset] overwritten and, under
    [drop_text], [text] popped. *)
Definition modified_entry (self : t) (data_entry : Entry)
    (duration offset : Q) : DataEntry :=
  let modified_entry := data_entry in
  let modified_entry := <[py "duration" := VNum duration]> modified_entry in
  let modified_entry := <[py "offset" := VNum offset]> modified_entry in
  let modified_entry :=
    if drop_text self then delete (py "text") modified_entry
    else modified_entry in
  mkDataEntry modified_entry None.

(** [output] is a Python list that starts as [[None] * total_segments]
    and is filled by index; [None] slots are [None] here too. *)
Definition process_dataset_entry (self : t) (data_entry : Entry)
    : result (list (option DataEntry)) :=
  v ← getitem data_entry (py "duration");
  total_duration ← as_number v;
  if Qeq_bool (segment_duration self) 0 then Raise ZeroDivisionError else
  let total_segments : Z :=
    Qfloor (total_duration / segment_duration self) in
  let output : list (option DataEntry) :=
    replicate (Z.to_nat total_segments) None in
  let output :=
    foldl (λ output segment_idx,
             <[segment_idx :=
                 Some (modified_entry self data_entry
                         (segment_duration self)
                         (inject_Z (Z.of_nat segment_idx)
                          * segment_duration self)%Q)]> output)
          output (seq 0 (Z.to_nat total_segments)) in
  let remainder : Q :=
    (total_duration - segment_duration self * inject_Z total_segments)%Q in
  let output :=
    if negb (drop_last self) && negb (Qle_bool remainder 0)
    then output ++
         [Some (modified_entry self data_entry remainder
                  (segment_duration self * inject_Z total_segments)%Q)]
    else output in
  Ok output.

End SplitOnFixedDuration.

(** Python's [==] on the values of an entry is decided structurally: the
    processors only ever compare a value with a [str]. *)
#[global] Instance Q_eq_dec : EqDecision Q.
Proof. solve_decision. Defined.
#[global] Instance value_eq_dec : EqDecision value.
Proof. solve_decision. Defined.

(** [key in data_entry] *)
Definition contains (data_entry : Entry) (key : str) : bool :=
  bool_decide (is_Some (data_entry !! key)).

(** ** CombineSources *)

Module CombineSources.

(** One element of [sources]: [{field: ..., origin_label: ...}]. *)
Record source : Type := mkSource {
  field : str;
  origin_label : str
}.

Record t : Type := mk {
  sources : list source;
  target : str;
  na_indicator : str
}.

(** [f"{self.target}_origin"] *)
Definition target_origin (self : t) : str := target self ++ py "_origin".

(** [data_entry.get(source_dict['field'], self.na_indicator)
     != self.na_indicator] *)
Definition available (self : t) (data_entry : Entry) (source_dict : source)
    : bool :=
  bool_decide (default (VStr (na_indicator self))
                       (data_entry !! field source_dict)
               ≠ VStr (na_indicator self)).

(** The [for ... else] loop over the not yet visited sources. *)
Fixpoint for_sources (self : t) (data_entry : Entry) (todo : list source)
    : result Entry :=
  match todo with
  | source_dict :: todo =>
      if available self data_entry source_dict then
        v ← getitem data_entry (field source_dict);
        let data_entry := <[target self := v]> data_entry in
        let data_entry :=
          <[target_origin self := VStr (origin_label source_dict)]>
            data_entry in
        Ok data_entry  (* break *)
      else for_sources self data_entry todo
  | [] =>  (* else: no break was triggered *)
      let data_entry :=
        <[target self := VStr (na_indicator self)]> data_entry in
      let data_entry :=
        <[target_origin self := VStr (na_indicator self)]> data_entry in
      Ok data_entry
  end.

Definition process_dataset_entry (self : t) (data_entry : Entry)
    : result (list DataEntry) :=
  data_entry ← for_sources self data_entry (sources self);
  Ok [mkDataEntry data_entry None].

End CombineSources.

(** ** AddConstantFields *)

Module AddConstantFields.

Record t : Type := mk { fields : Entry }.

(** [dict.update]: the keys of [fields] win. *)
Definition process_dataset_entry (self : t) (data_entry : Entry)
    : result (list DataEntry) :=
  let data_entry := fields self ∪ data_entry in
  Ok [mkDataEntry data_entry None].

End AddConstantFields.

(** ** DuplicateFields *)

Module DuplicateFields.

(** [duplicate_fields] is a [dict]; [.items()] walks it in insertion
    order, so it is kept as the list of its (source, target) pairs. *)
Record t : Type := mk { duplicate_fields : list (str * str) }.

Fixpoint for_items (items : list (str * str)) (data_entry : Entry)
    : result Entry :=
  match items with
  | [] => Ok data_entry
  | (field_src, field_tgt) :: items =>
      if negb (contains data_entry field_src)
      then Raise (ValueError field_src data_entry)
      else
        v ← getitem data_entry field_src;
        let data_entry := <[field_tgt := v]> data_entry in
        for_items items data_entry
  end.

Definition process_dataset_entry (self : t) (data_entry : Entry)
    : result (list DataEntry) :=
  data_entry ← for_items (duplicate_fields self) data_entry;
  Ok [mkDataEntry data_entry None].

End DuplicateFields.

(** ** RenameFields *)

Module RenameFields.

Record t : Type := mk { rename_fields : list (str * str) }.

Fixpoint for_items (items : list (str * str)) (data_entry : Entry)
    : result Entry :=
  match items with
  | [] => Ok data_entry
  | (field_src, field_tgt) :: items =>
      if negb (contains data_entry field_src)
      then Raise (ValueError field_src data_entry)
      else
        v ← getitem data_entry field_src;
        let data_entry := <[field_tgt := v]> data_entry in
        let data_entry := delete field_src data_entry in
        for_items items data_entry
  end.

Definition process_dataset_entry (self : t) (data_entry : Entry)
    : result (list DataEntry) :=
  data_entry ← for_items (rename_fields self) data_entry;
  Ok [mkDataEntry data_entry None].

End RenameFields.

(** ** ChangeToRelativePath *)

Module ChangeToRelativePath.
Section WithOsPath.

(** [os.path.relpath(path, start)] of the Python standard library. *)
Variable relpath : str → str → result str.

Record t : Type := mk { base_dir : str }.

Definition process_dataset_entry (self : t) (data_entry : Entry)
    : result (list DataEntry) :=
  v ← getitem data_entry (py "audio_filepath");
  match v with
  | VStr path =>
      rel ← relpath path (base_dir self);
      let data_entry := <[py "audio_filepath" := VStr rel]> data_entry in
      Ok [mkDataEntry data_entry None]
  | _ => Raise TypeError
  end.

End WithOsPath.
End ChangeToRelativePath.

(** ** Python's [str.replace] *)

(** [text.startswith(old)] *)
Fixpoint starts_with (old text : str) : bool :=
  match old, text with
  | [], _ => true
  | c :: old, d :: text => bool_decide (c = d) && starts_with old text
  | _ :: _, [] => false
  end.

(** Left-to-right replacement of the non-overlapping occurrences of a
    non-empty [old]; [skip] counts the characters of a matched occurrence
    that are still to be passed over. *)
Fixpoint replace_from (old new : str) (skip : nat) (text : str) : str :=
  match text with
  | [] => []
  | c :: rest =>
      match skip with
      | S skip => replace_from old new skip rest
      | O =>
          if starts_with old text
          then new ++ replace_from old new (length old - 1) rest
          else c :: replace_from old new 0 rest
      end
  end.

(** [text.replace(old, new)]; an empty [old] matches before every character
    and at the end. *)
Definition replace (text old new : str) : str :=
  match old with
  | [] => new ++ concat ((λ c, c :: new) <$> text)
  | _ :: _ => replace_from old new 0 text
  end.

(** ** RemoveExtraSymbols *)

Module RemoveExtraSymbols.
Section WithUnicode.

(** [x.upper()] for a one-character string [x], from Python's Unicode
    tables; it may be longer than one character. *)
Variable upper : char → str.

Record t : Type := mk {
  ignore_symbols : str;
  target_language : str;
  text_key : str  (* defaults to "text" *)
}.

(** U+2024 and U+0589, the replacements of "." and ":". *)
Definition armenian_full_stop : str := [8228%N].
Definition armenian_colon : str := [1417%N].

Definition clear_text (text ignore lang : str) : str :=
  let text :=
    if bool_decide (lang = py "armenian")
    then replace (replace text (py ".") armenian_full_stop)
                 (py ":") armenian_colon
    else text in
  foldl (λ text x,
           let text := replace text [x] [] in
           let text := replace text (upper x) [] in
           text)
        text ignore.

(** [partial(self.clear_text, ignore=ignore_symbols, lang=target_language)] *)
Definition filter_text (self : t) (text : str) : str :=
  clear_text text (ignore_symbols self) (target_language self).

(** A number or a boolean has no [replace] ([AttributeError] at the first
    call [clear_text] makes) and no [len] ([TypeError], reached when
    [clear_text] makes no call at all). *)
Definition process_dataset_entry (self : t) (data_entry : Entry)
    : result (list DataEntry) :=
  v ← getitem data_entry (text_key self);
  match v with
  | VStr original_text =>
      let cleaned_text := filter_text self original_text in
      let n_removed_symbols :=
        (Z.of_nat (length original_text) - Z.of_nat (length cleaned_text))%Z in
      Ok [mkDataEntry data_entry (Some n_removed_symbols)]
  | _ =>
      if bool_decide (target_language self = py "armenian")
         || negb (bool_decide (ignore_symbols self = []))
      then Raise AttributeError
      else Raise TypeError
  end.

End WithUnicode.

(** [upper] on the ASCII range, for running the processor on ASCII text. *)
Definition ascii_upper (x : char) : str :=
  if bool_decide (97 ≤ x ≤ 122)%N then [(x - 32)%N] else [x].

End RemoveExtraSymbols.

(** ** CreateTokenizer: the command handed to [subprocess.run] *)

Module CreateTokenizer.
Section WithOs.

(** [os.path.join], [os.path.exists] and [sys.executable]. *)
Variable path_join : list str → str.
Variable path_exists : str → bool.
Variable sys_executable : str.

Record t : Type := mk {
  data_folder : str;
  nemo_repo_path : str;
  vocab_size : Z;
  extra_corpus : str;
  lower_case : bool;
  ignore_symbols : str;
  target_language : str;
  nemo_executable : str;
  tokenizer : str;
  spe_type : str
}.

(** The elements of [command] before [str(x)] is applied to each. *)
Inductive arg : Type :=
  | AStr (s : str)
  | AInt (n : Z).

Definition str_of (x : arg) : str :=
  match x with
  | AStr s => s
  | AInt n => py (pretty n)
  end.

Definition script_path (self : t) : str :=
  path_join [nemo_repo_path self;
             py "scripts/tokenizers/process_asr_text_tokenizer.py"].

(** [__init__] replaces an executable that does not exist. *)
Definition resolved_executable (self : t) : str :=
  if negb (path_exists (nemo_executable self)) then sys_executable
  else nemo_executable self.

(** The list returned by [get_command_to_run]; writing the corpus file,
    which precedes it, does not influence the list. *)
Definition get_command_to_run (self : t) : list str :=
  let document_path :=
    path_join [data_folder self; py "text_corpus"; py "document.txt"] in
  let command :=
    [AStr (resolved_executable self);
     AStr (script_path self);
     AStr (py "--data_file");
     AStr document_path;
     AStr (py "--vocab_size");
     AInt (vocab_size self);
     AStr (py "--data_root");
     AStr (data_folder self);
     AStr (py "--tokenizer");
     AStr (tokenizer self);
     AStr (py "--spe_type");
     AStr (spe_type self)] in
  let command :=
    if lower_case self then command ++ [AStr (py "--no_lower_case")]
    else command in
  str_of <$> command.

End WithOs.
End CreateTokenizer.

(** ** The per-entry processors as one family *)

Inductive Processor : Type :=
  | PCombineSources (self : CombineSources.t)
  | PAddConstantFields (self : AddConstantFields.t)
  | PDuplicateFields (self : DuplicateFields.t)
  | PRenameFields (self : RenameFields.t)
  | PSplitOnFixedDuration (self : SplitOnFixedDuration.t)
  | PChangeToRelativePath (self : ChangeToRelativePath.t)
  | PRemoveExtraSymbols (self : RemoveExtraSymbols.t).

Section Dispatch.

Variable relpath : str → str → result str.
Variable upper : char → str.

(** The call [processor.process_dataset_entry(data_entry)]; the returned
    Python list may hold [None]. *)
Definition process_dataset_entry (processor : Processor)
    (data_entry : Entry) : result (list (option DataEntry)) :=
  let items (output : list DataEntry) : list (option DataEntry) :=
    Some <$> output in
  match processor with
  | PCombineSources self =>
      items <$> CombineSources.process_dataset_entry self data_entry
  | PAddConstantFields self =>
      items <$> AddConstantFields.process_dataset_entry self data_entry
  | PDuplicateFields self =>
      items <$> DuplicateFields.process_dataset_entry self data_entry
  | PRenameFields self =>
      items <$> RenameFields.process_dataset_entry self data_entry
  | PSplitOnFixedDuration self =>
      SplitOnFixedDuration.process_dataset_entry self data_entry
  | PChangeToRelativePath self =>
      items <$>
        ChangeToRelativePath.process_dataset_entry relpath self data_entry
  | PRemoveExtraSymbols self =>
      items <$>
        RemoveExtraSymbols.process_dataset_entry upper self data_entry
  end.

End Dispatch.

(** The fields a processor's configuration names as written, renamed or
    dropped. *)
Definition configured_fields (processor : Processor) : gset str :=
  match processor with
  | PCombineSources self =>
      {[CombineSources.target self; CombineSources.target_origin self]}
  | PAddConstantFields self => dom (AddConstantFields.fields self)
  | PDuplicateFields self =>
      list_to_set (DuplicateFields.duplicate_fields self).*2
  | PRenameFields self =>
      list_to_set (RenameFields.rename_fields self).*1
      ∪ list_to_set (RenameFields.rename_fields self).*2
  | PSplitOnFixedDuration self =>
      {[py "duration"; py "offset"]}
      ∪ (if SplitOnFixedDuration.drop_text self then {[py "text"]} else ∅)
  | PChangeToRelativePath self => {[py "audio_filepath"]}
  | PRemoveExtraSymbols self => {[RemoveExtraSymbols.text_key self]}
  end.

(** ** SortManifest *)

Module SortManifest.

Record t : Type := mk {
  attribute_sort_by : str;
  descending : bool  (* defaults to True *)
}.

(** Python's [<] on two strings: by code point, a proper prefix first. *)
Fixpoint str_lt (a b : str) : bool :=
  match a, b with
  | _, [] => false
  | [], _ :: _ => true
  | x :: a, y :: b => (x <? y)%N || ((x =? y)%N && str_lt a b)
  end.

(** Python's [<] on two sort keys: numbers (and booleans) compare by value,
    strings with strings, and a string against a number raises
    [TypeError]. *)
Definition lt (a b : value) : result bool :=
  match a, b with
  | VStr s, VStr s' => Ok (str_lt s s')
  | _, _ =>
      x ← as_number a;
      y ← as_number b;
      Ok (negb (Qle_bool y x))
  end.

(** [key=lambda x: x[self.attribute_sort_by]]: [sorted] computes the key of
    every entry before it compares any two. *)
Fixpoint with_keys (self : t) (dataset_entries : list Entry)
    : result (list (value * Entry)) :=
  match dataset_entries with
  | [] => Ok []
  | x :: dataset_entries =>
      k ← getitem x (attribute_sort_by self);
      keyed ← with_keys self dataset_entries;
      Ok ((k, x) :: keyed)
  end.

(** [sorted] is a stable comparison sort that only uses [<] on the keys,
    which determines the list it returns; insertion stands for it.  An
    element goes behind the elements of the sorted rest that are less than
    it and before all others. *)
Fixpoint insert (x : value * Entry) (l : list (value * Entry))
    : result (list (value * Entry)) :=
  match l with
  | [] => Ok [x]
  | y :: l' =>
      less ← lt y.1 x.1;
      if (less : bool) then
        rest ← insert x l';
        Ok (y :: rest)
      else Ok (x :: l)
  end.

Definition stable_sort (keyed : list (value * Entry))
    : result (list (value * Entry)) :=
  foldr (λ x sorted_rest, sorted_rest ≫= insert x) (Ok []) keyed.

(** [sorted(..., reverse=...)]: with [reverse] the list is reversed, sorted
    and reversed again, which keeps equal keys in their original order. *)
Definition sorted (keyed : list (value * Entry)) (rev : bool)
    : result (list (value * Entry)) :=
  if rev then reverse <$> stable_sort (reverse keyed)
  else stable_sort keyed.

(** [process], from the parsed lines of the input manifest to the lines
    written to the output manifest; the output file is opened only after
    [sorted] has returned, so an exception leaves nothing written. *)
Definition process (self : t) (dataset_entries : list Entry)
    : result (list Entry) :=
  keyed ← with_keys self dataset_entries;
  dataset_entries ← sorted keyed (descending self);
  Ok (dataset_entries.*2).

End SortManifest.

(** ** KeepOnlySpecifiedFields *)

Module KeepOnlySpecifiedFields.

Record t : Type := mk { fields_to_keep : list str }.

(** [{field: line[field] for field in self.fields_to_keep}], built from
    left to right. *)
Fixpoint comprehension (fields : list str) (line new_line : Entry)
    : result Entry :=
  match fields with
  | [] => Ok new_line
  | field :: fields =>
      v ← getitem line field;
      comprehension fields line (<[field := v]> new_line)
  end.

Definition new_line (self : t) (line : Entry) : result Entry :=
  comprehension (fields_to_keep self) line ∅.

(** [process] reads the manifest line by line and writes each projected
    line at once: [fout] is what has been written so far, and an exception
    leaves it in the output file. *)
Fixpoint for_lines (self : t) (fin fout : list Entry)
    : list Entry * option exception :=
  match fin with
  | [] => (fout, None)
  | line :: fin =>
      match new_line self line with
      | Ok new_line => for_lines self fin (fout ++ [new_line])
      | Raise e => (fout, Some e)
      end
  end.

Definition process (self : t) (fin : list Entry)
    : list Entry * option exception :=
  for_lines self fin [].

End KeepOnlySpecifiedFields.

(** ** ConvertDatasetToTar: the command handed to [subprocess.run] *)

Module ConvertDatasetToTar.
Section WithOs.

(** [os.path.join], [os.path.exists], [sys.executable] and [str] on a
    float. *)
Variable path_join : list str → str.
Variable path_exists : str → bool.
Variable sys_executable : str.
Variable str_of_float : Q → str.

Record t : Type := mk {
  target_dir : str;
  nemo_repo_path : str;
  shuffle : bool;
  workers : Z;
  nemo_executable : str;
  shuffle_seed : Z;
  num_shards : Z;
  min_duration : Q;
  max_duration : Q;
  sort_in_shards : bool;
  input_manifest_file : str
}.

Inductive arg : Type :=
  | AStr (s : str)
  | AInt (n : Z)
  | AFloat (q : Q).

Definition str_of (x : arg) : str :=
  match x with
  | AStr s => s
  | AInt n => py (pretty n)
  | AFloat q => str_of_float q
  end.

Definition script_path (self : t) : str :=
  path_join
    [nemo_repo_path self;
     py "scripts\speech_recognition\convert_to_tarred_audio_dataset.py"].

Definition resolved_executable (self : t) : str :=
  if negb (path_exists (nemo_executable self)) then sys_executable
  else nemo_executable self.

Definition get_command_to_run (self : t) : list str :=
  let command :=
    [AStr (resolved_executable self);
     AStr (script_path self);
     AStr (py "--manifest_path");
     AStr (input_manifest_file self);
     AStr (py "--min_duration");
     AFloat (min_duration self);
     AStr (py "--target_dir");
     AStr (target_dir self);
     AStr (py "--shuffle_seed");
     AInt (shuffle_seed self);
     AStr (py "--max_duration");
     AFloat (max_duration self);
     AStr (py "--workers");
     AInt (workers self);
     AStr (py "--num_shards");
     AInt (num_shards self)] in
  let command :=
    if shuffle self then command ++ [AStr (py "--shuffle")] else command in
  let command :=
    if sort_in_shards self then command ++ [AStr (py "--sort_in_shards")]
    else command in
  str_of <$> command.

End WithOs.
End ConvertDatasetToTar.

(** ** CreateTokenizer: the corpus file *)

Module TokenizerCorpus.
Section WithFiles.

(** [str.upper], [glob.glob] and the lines a text file yields when it is
    iterated (each with its line end). *)
Variable upper : char → str.
Variable glob : str → list str.
Variable lines_of : str → list str.

(** The loop over the manifest in [get_command_to_run]: the text of every
    item followed by a line feed; [document] is what has been written. *)
Fixpoint write_texts (manifest : list Entry) (document : str)
    : str * option exception :=
  match manifest with
  | [] => (document, None)
  | item :: manifest =>
      match getitem item (py "text") with
      | Ok (VStr text) => write_texts manifest (document ++ text ++ [10%N])
      | Ok _ => (document, Some TypeError)
      | Raise e => (document, Some e)
      end
  end.

(** [insert_files_into_doc]: every line of every matched file, filtered,
    is appended to the document. *)
Definition insert_files_into_doc (document : str) (corpus : str)
    (filter_function : str → str) : str :=
  let corpus := glob corpus in
  foldl (λ document txt_file_path,
           foldl (λ document line, document ++ filter_function line)
                 document (lines_of txt_file_path))
        document corpus.

(** The content of [document.txt] when [get_command_to_run] returns or
    raises. *)
Definition document_txt (self : CreateTokenizer.t) (manifest : list Entry)
    : str * option exception :=
  match write_texts manifest [] with
  | (document, Some e) => (document, Some e)
  | (document, None) =>
      if bool_decide (CreateTokenizer.extra_corpus self ≠ [])
      then
        let filter_text text :=
          RemoveExtraSymbols.clear_text upper text
            (CreateTokenizer.ignore_symbols self)
            (CreateTokenizer.target_language self) in
        (insert_files_into_doc document (CreateTokenizer.extra_corpus self)
           filter_text, None)
      else (document, None)
  end.

End WithFiles.
End TokenizerCorpus.

(** ** Vocabulary of the statements *)

(** What a segment is: the entry with [duration] and [offset] set, and
    without [text] when [drop_text] is on. *)
Definition segment_of (drop_text : bool) (data_entry : Entry)
    (duration offset : Q) (item : option DataEntry) : Prop :=
  ∃ seg, item = Some seg
    ∧ data seg !! py "duration" = Some (VNum duration)
    ∧ data seg !! py "offset" = Some (VNum offset)
    ∧ ∀ k, k ≠ py "duration" → k ≠ py "offset" →
        data seg !! k =
          if drop_text && bool_decide (k = py "text") then None
          else data_entry !! k.




(** A source the scan passes over: its field is absent from the entry or
    holds the not-available indicator. *)
Definition skipped (self : CombineSources.t) (data_entry : Entry)
    (source_dict : CombineSources.source) : Prop :=
  data_entry !! CombineSources.field source_dict = None
  ∨ data_entry !! CombineSources.field source_dict
    = Some (VStr (CombineSources.na_indicator self)).


(** No pair writes a field that a later pair of [items] reads. *)
Fixpoint no_later_source (items : list (str * str)) : Prop :=
  match items with
  | [] => True
  | (_, field_tgt) :: items =>
      (field_tgt ∉ items.*1) ∧ no_later_source items
  end.

(** What [clear_text] does to one character under the "armenian" tag:
    "." (46) becomes U+2024 and ":" (58) becomes U+0589. *)
Definition armenian_punctuation (c : char) : char :=
  if decide (c = 46%N) then 8228%N
  else if decide (c = 58%N) then 1417%N else c.

(** Two keys are of one kind when both are strings or neither is. *)
Definition is_str (v : value) : bool :=
  match v with VStr _ => true | _ => false end.

(** [a] may stand before [b]: the keys compare and [b]'s is not the lesser. *)
Definition key_le (a b : value * Entry) : Prop := SortManifest.lt b.1 a.1 = Ok false.

(** [x] has the same rank as the key [k]: neither is less than the other. *)
Definition same_key (k : value) (x : value * Entry) : Prop :=
  SortManifest.lt k x.1 = Ok false ∧ SortManifest.lt x.1 k = Ok false.

#[global] Instance same_key_dec k x : Decision (same_key k x).
Proof.
  unfold same_key.
  destruct (SortManifest.lt k x.1) as [[]|]; destruct (SortManifest.lt x.1 k) as [[]|];
    try (right; intros [??]; discriminate).
  by left.
Defined.

(** The pair of an entry and its sort key. *)
Definition keyed_by (self : SortManifest.t) (p : value * Entry) : Prop :=
  p.2 !! SortManifest.attribute_sort_by self = Some p.1.

(** The entry [x] has a sort key of the same rank as [k]. *)
Definition same_rank (self : SortManifest.t) (k : value) (x : Entry) : Prop :=
  match x !! SortManifest.attribute_sort_by self with
  | Some kx => same_key k (kx, x)
  | None => False
  end.

#[global] Instance same_rank_dec (self : SortManifest.t) k x : Decision (same_rank self k x).
Proof. unfold same_rank. destruct (x !! _); apply _. Defined.

(** A line has every field of the list. *)
Definition has_fields (fields : list str) (line : Entry) : Prop :=
  ∀ field, field ∈ fields → is_Some (line !! field).

(** ** Sample inputs *)


(** The configuration of the documented scenario and its entry. *)
Definition combine_text_pc : CombineSources.t :=
  CombineSources.mk
    [CombineSources.mkSource (py "text_pc") (py "original")]
    (py "text") (py "n/a").
Definition data_entry_na : Entry := {[py "text_pc" := VStr (py "n/a")]}.

(** A configuration that prefers the target field itself, and an entry that
    only has the fallback field. *)
Definition combine_keep_text : CombineSources.t :=
  CombineSources.mk
    [CombineSources.mkSource (py "text") (py "kept");
     CombineSources.mkSource (py "text_pc") (py "original")]
    (py "text") (py "n/a").
Definition data_entry_pc : Entry := {[py "text_pc" := VStr (py "A")]}.
(** That entry after one and after two runs of [combine_keep_text]. *)
Definition data_entry_pc_once : Entry :=
  {[py "text_pc" := VStr (py "A"); py "text" := VStr (py "A");
    py "text_origin" := VStr (py "original")]}.
Definition data_entry_pc_twice : Entry :=
  {[py "text_pc" := VStr (py "A"); py "text" := VStr (py "A");
    py "text_origin" := VStr (py "kept")]}.

(** Configurations whose second pair reads the field the first one writes,
    a configuration that tries to swap two fields, and two entries. *)
Definition duplicate_chain : DuplicateFields.t :=
  DuplicateFields.mk [(py "a", py "b"); (py "b", py "c")].
Definition rename_swap : RenameFields.t :=
  RenameFields.mk [(py "a", py "b"); (py "b", py "a")].
Definition data_entry_a : Entry := {[py "a" := VNum 1]}.
Definition data_entry_ab : Entry := {[py "a" := VNum 1; py "b" := VNum 2]}.
Definition data_entry_abc : Entry :=
  {[py "a" := VNum 1; py "b" := VNum 1; py "c" := VNum 1]}.
Definition data_entry_c : Entry := {[py "c" := VNum 1]}.
Definition data_entry_a2 : Entry := {[py "a" := VNum 2]}.
Definition duplicate_one : DuplicateFields.t :=
  DuplicateFields.mk [(py "a", py "b")].
Definition rename_one : RenameFields.t :=
  RenameFields.mk [(py "a", py "b")].

(** An entry with a field no processor is configured to touch, and a
    segmentation configuration. *)
Definition data_entry_speaker : Entry :=
  {[py "speaker" := VStr (py "s1"); py "duration" := VNum (15 # 2);
    py "text" := VStr (py "a,b")]}.
Definition split_3 : SplitOnFixedDuration.t :=
  SplitOnFixedDuration.mk 3 false true.

(** Stripping the comma from [{"text": "a,b"}]. *)
Definition strip_comma : RemoveExtraSymbols.t :=
  RemoveExtraSymbols.mk (py ",") (py "armenian") (py "text").
Definition data_entry_comma : Entry := {[py "text" := VStr (py "a,b")]}.

(** A tokenizer configuration with the constructor's defaults, and stand-ins
    for the [os] functions: no executable exists, paths are joined with "/". *)
Definition join_with_slash (parts : list str) : str :=
  match parts with
  | [] => []
  | first :: others => foldl (λ path part, path ++ py "/" ++ part) first others
  end.
Definition tokenizer_defaults (lower_case : bool) : CreateTokenizer.t :=
  CreateTokenizer.mk (py "data") (py "NeMo") 128 [] lower_case [] []
    (py "~/anaconda3/envs/nemo/python.exe") (py "spe") (py "unigram").

(** A manifest with two entries of the same duration, and the
    configurations that sort it by duration. *)
Definition utterance (name : str) (duration : Q) : Entry :=
  {[py "name" := VStr name; py "duration" := VNum duration]}.
Definition manifest_durations : list Entry :=
  [utterance (py "a") 2; utterance (py "b") 5; utterance (py "c") 2].
Definition sort_by_duration (descending : bool) : SortManifest.t :=
  SortManifest.mk (py "duration") descending.

(** A manifest of two texts, one of them with a comma, and an extra corpus
    of one file with one line. *)
Definition manifest_texts : list Entry :=
  [{[py "text" := VStr (py "a,b")]}; {[py "text" := VStr (py "c")]}].
Definition tokenizer_with_corpus : CreateTokenizer.t :=
  CreateTokenizer.mk (py "data") (py "NeMo") 128 (py "extra/*.txt") true
    (py ",") [] (py "python") (py "spe") (py "unigram").
Definition one_file (pattern : str) : list str := [py "extra/1.txt"].
Definition one_line (path : str) : list str := [py "d,e" ++ [10%N]].

(** * Properties *)

(** ** Shared facts *)

(** The keys the processors name are pairwise different. *)
Lemma duration_ne_offset : py "duration" ≠ py "offset".
Proof. discriminate. Qed.
Lemma text_ne_duration : py "text" ≠ py "duration".
Proof. discriminate. Qed.
Lemma text_ne_offset : py "text" ≠ py "offset".
Proof. discriminate. Qed.

(** Sequencing two computations succeeds exactly when both do. *)
Lemma bind_Ok {A B} (m : result A) (f : A → result B) (b : B) :
  m ≫= f = Ok b ↔ ∃ a, m = Ok a ∧ f a = Ok b.
Proof.
  destruct m as [a|e]; simpl.
  - split; [intros H; by exists a | by intros (a' & [= ->] & H)].
  - split; [discriminate | by intros (a' & [=] & _)].
Qed.

Lemma fmap_Ok {A B} (f : A → B) (m : result A) (b : B) :
  f <$> m = Ok b ↔ ∃ a, m = Ok a ∧ b = f a.
Proof.
  destruct m as [a|e]; simpl.
  - split; [intros [= <-]; by exists a | by intros (a' & [= ->] & ->)].
  - split; [discriminate | by intros (a' & [=] & _)].
Qed.

Lemma getitem_Ok (data_entry : Entry) (key : str) (v : value) :
  getitem data_entry key = Ok v ↔ data_entry !! key = Some v.
Proof.
  unfold getitem. destruct (data_entry !! key); split; congruence.
Qed.

Lemma contains_true (data_entry : Entry) (key : str) :
  contains data_entry key = true ↔ is_Some (data_entry !! key).
Proof. unfold contains. apply bool_decide_eq_true. Qed.

Lemma contains_false (data_entry : Entry) (key : str) :
  contains data_entry key = false ↔ data_entry !! key = None.
Proof.
  unfold contains. rewrite bool_decide_eq_false. symmetry.
  apply eq_None_not_Some.
Qed.

(** ** SplitOnFixedDuration *)

Module SplitFacts.
Import SplitOnFixedDuration.

(** Filling the slots [0 .. k-1] of a list by index, in order. *)
Lemma fill_by_index {A} (f : nat → A) (k : nat) (output : list (option A)) :
  k ≤ length output →
  foldl (λ output i, <[i := Some (f i)]> output) output (seq 0 k)
  = ((λ i, Some (f i)) <$> seq 0 k) ++ drop k output.
Proof.
  induction k as [|k IH]; intros Hk.
  - by rewrite drop_0.
  - rewrite seq_S, foldl_app, fmap_app. simpl.
    rewrite IH by lia.
    destruct (lookup_lt_is_Some_2 output k) as [x Hx]; [lia|].
    rewrite (drop_S _ _ _ Hx).
    rewrite insert_app_r_alt; rewrite length_fmap, length_seq; [|lia].
    rewrite Nat.sub_diag. simpl. by rewrite <- app_assoc.
Qed.

Lemma fill_replicate {A} (f : nat → A) (n : nat) :
  foldl (λ output i, <[i := Some (f i)]> output) (replicate n None) (seq 0 n)
  = (λ i, Some (f i)) <$> seq 0 n.
Proof.
  rewrite fill_by_index by (rewrite length_replicate; lia).
  rewrite drop_ge by (rewrite length_replicate; lia).
  apply app_nil_r.
Qed.

Lemma modified_entry_segment (self : t) (data_entry : Entry) (dur off : Q) :
  segment_of (drop_text self) data_entry dur off
             (Some (modified_entry self data_entry dur off)).
Proof.
  exists (modified_entry self data_entry dur off).
  unfold modified_entry; simpl.
  pose proof duration_ne_offset. pose proof text_ne_duration.
  pose proof text_ne_offset.
  destruct (drop_text self); simpl; repeat split; intros;
    try case_bool_decide; by simplify_map_eq.
Qed.



End SplitFacts.

Module SplitProperties.
Import SplitOnFixedDuration SplitFacts.














End SplitProperties.

(** ** CombineSources *)

Module CombineFacts.
Import CombineSources.

Lemma available_false (self : t) (data_entry : Entry) (source_dict : source) :
  available self data_entry source_dict = false
  ↔ skipped self data_entry source_dict.
Proof.
  unfold available, skipped. rewrite bool_decide_eq_false.
  destruct (data_entry !! field source_dict) as [v|]; simpl.
  - split.
    + intros H. right. f_equal. by apply dec_stable.
    + intros [[=] | [= ->]]. by intros [].
  - split; [by left | by intros _ []].
Qed.

Lemma available_true (self : t) (data_entry : Entry) (source_dict : source) :
  available self data_entry source_dict = true
  ↔ ∃ v, data_entry !! field source_dict = Some v
         ∧ v ≠ VStr (na_indicator self).
Proof.
  unfold available. rewrite bool_decide_eq_true.
  destruct (data_entry !! field source_dict) as [v|]; simpl.
  - split; [by exists v | by intros (? & [= <-] & ?)].
  - split; [done | by intros (? & [=] & _)].
Qed.

Lemma for_sources_skip (self : t) (data_entry : Entry) (pre todo : list source) :
  Forall (skipped self data_entry) pre →
  for_sources self data_entry (pre ++ todo) = for_sources self data_entry todo.
Proof.
  induction 1 as [|p pre Hp _ IH]; [done|]. simpl.
  apply available_false in Hp. by rewrite Hp.
Qed.

Lemma for_sources_win (self : t) (data_entry : Entry) (src : source)
    (todo : list source) (v : value) :
  data_entry !! field src = Some v → v ≠ VStr (na_indicator self) →
  for_sources self data_entry (src :: todo)
  = Ok (<[target_origin self := VStr (origin_label src)]>
          (<[target self := v]> data_entry)).
Proof.
  intros Hv Hne. simpl.
  assert (Ha : available self data_entry src = true)
    by (apply available_true; eauto).
  rewrite Ha. apply getitem_Ok in Hv. by rewrite Hv.
Qed.

(** The two outcomes of the scan, for the whole processor. *)
Lemma process_first_available (self : t) (data_entry : Entry) pre src post v :
  sources self = pre ++ src :: post →
  Forall (skipped self data_entry) pre →
  data_entry !! field src = Some v → v ≠ VStr (na_indicator self) →
  process_dataset_entry self data_entry
  = Ok [mkDataEntry
          (<[target_origin self := VStr (origin_label src)]>
             (<[target self := v]> data_entry)) None].
Proof.
  intros Hsrc Hpre Hv Hne.
  unfold process_dataset_entry. rewrite Hsrc, for_sources_skip by done.
  by rewrite (for_sources_win _ _ _ _ v).
Qed.

Lemma process_none_available (self : t) (data_entry : Entry) :
  Forall (skipped self data_entry) (sources self) →
  process_dataset_entry self data_entry
  = Ok [mkDataEntry
          (<[target_origin self := VStr (na_indicator self)]>
             (<[target self := VStr (na_indicator self)]> data_entry))
          None].
Proof.
  intros Hall. unfold process_dataset_entry.
  rewrite <- (app_nil_r (sources self)), for_sources_skip by done.
  done.
Qed.

(** C3. CombineSources scans the sources in declared order; the first
    source whose field is present in the entry with a value different from
    the not-available indicator wins: its value is written to the target
    field and its [origin_label] to ["<target>_origin"].  Absent fields and
    fields holding the indicator are skipped alike.  When no source
    qualifies both fields are set to the indicator; thus the entry
    [{"text_pc": "n/a"}] with the single source text_pc/original and target
    ["text"] gets [text = "n/a"] and [text_origin = "n/a"]. *)
Theorem combine_sources_first_available :
  (∀ (self : t) (data_entry : Entry) pre src post v,
     sources self = pre ++ src :: post →
     Forall (skipped self data_entry) pre →
     data_entry !! field src = Some v → v ≠ VStr (na_indicator self) →
     process_dataset_entry self data_entry
     = Ok [mkDataEntry
             (<[target_origin self := VStr (origin_label src)]>
                (<[target self := v]> data_entry)) None])
  ∧ (∀ (self : t) (data_entry : Entry),
       Forall (skipped self data_entry) (sources self) →
       process_dataset_entry self data_entry
       = Ok [mkDataEntry
               (<[target_origin self := VStr (na_indicator self)]>
                  (<[target self := VStr (na_indicator self)]> data_entry))
               None])
  ∧ process_dataset_entry combine_text_pc data_entry_na
    = Ok [mkDataEntry {[py "text_pc" := VStr (py "n/a");
                        py "text" := VStr (py "n/a");
                        py "text_origin" := VStr (py "n/a")]} None].
Proof.
  split; [|split].
  - intros self data_entry pre src post v. apply process_first_available.
  - apply process_none_available.
  - reflexivity.
Qed.

Lemma combine_sources_first_available_witness :
  (process_dataset_entry
     (mk [mkSource (py "text_pc") (py "original");
          mkSource (py "text") (py "no_pc")] (py "text") (py "n/a"))
     {[py "text_pc" := VStr (py "n/a"); py "text" := VStr (py "hello")]}
   = Ok [mkDataEntry
           (<[py "text_origin" := VStr (py "no_pc")]>
              (<[py "text" := VStr (py "hello")]>
                 {[py "text_pc" := VStr (py "n/a");
                   py "text" := VStr (py "hello")]})) None])
  ∧ process_dataset_entry combine_text_pc data_entry_na
    = Ok [mkDataEntry
            (<[py "text_origin" := VStr (py "n/a")]>
               (<[py "text" := VStr (py "n/a")]> data_entry_na)) None].
Proof.
  split.
  - apply (proj1 combine_sources_first_available
             (mk [mkSource (py "text_pc") (py "original");
                  mkSource (py "text") (py "no_pc")] (py "text") (py "n/a"))
             _ [mkSource (py "text_pc") (py "original")]
             (mkSource (py "text") (py "no_pc")) []
             (VStr (py "hello"))).
    + reflexivity.
    + constructor; [right; reflexivity | constructor].
    + reflexivity.
    + discriminate.
  - apply (proj1 (proj2 combine_sources_first_available) combine_text_pc).
    constructor; [right; reflexivity | constructor].
Defined.
End CombineFacts.

Module CombineIdempotence.
Import CombineSources CombineFacts.

Lemma target_ne_origin (self : t) : target self ≠ target_origin self.
Proof.
  unfold target_origin. intros H. apply (f_equal length) in H.
  rewrite length_app in H. simpl in H. lia.
Qed.

(** With the target field listed before the source that supplied the value,
    the first run fills [text] from [text_pc] and labels it "original"; the
    second run finds [text] itself available and relabels it "kept". *)
Lemma combine_sources_reapplication_counterexample :
  process_dataset_entry combine_keep_text data_entry_pc
    = Ok [mkDataEntry data_entry_pc_once None]
  ∧ data_entry_pc_once !! py "text" = data_entry_pc !! py "text_pc"
  ∧ process_dataset_entry combine_keep_text data_entry_pc_once
    = Ok [mkDataEntry data_entry_pc_twice None]
  ∧ data_entry_pc_twice ≠ data_entry_pc_once.
Proof.
  repeat split; try reflexivity.
  intros H. apply (f_equal (lookup (py "text_origin"))) in H.
  vm_compute in H. discriminate.
Qed.

(** C9 (amended). Let a run of CombineSources fill the target from the
    first available source [src].  If [src] is not the ["<target>_origin"]
    field and no source before it in the preference order is the target
    field or the ["<target>_origin"] field, then running the processor again
    on the result, with the same configuration, leaves it unchanged. *)
Theorem combine_sources_reapplication (self : t) (data_entry : Entry)
    pre src post v :
  sources self = pre ++ src :: post →
  Forall (skipped self data_entry) pre →
  data_entry !! field src = Some v → v ≠ VStr (na_indicator self) →
  Forall (λ p, field p ≠ target self ∧ field p ≠ target_origin self) pre →
  field src ≠ target_origin self →
  ∃ once,
    process_dataset_entry self data_entry = Ok [mkDataEntry once None]
    ∧ once !! target self = Some v
    ∧ process_dataset_entry self once = Ok [mkDataEntry once None].
Proof.
  intros Hsrc Hpre Hv Hne Hfresh Hsrc_origin.
  pose proof (target_ne_origin self) as Hto.
  set (once := <[target_origin self := VStr (origin_label src)]>
                 (<[target self := v]> data_entry)).
  exists once. split; [|split].
  - by apply (process_first_available self data_entry pre src post).
  - unfold once. by simplify_map_eq.
  - assert (Hagain : process_dataset_entry self once
        = Ok [mkDataEntry
                (<[target_origin self := VStr (origin_label src)]>
                   (<[target self := v]> once)) None]).
    { apply (process_first_available self once pre src post);
        [done| |
         |done].
      - clear Hsrc. induction Hpre as [|p pre Hp Hpre IH]; [constructor|].
        apply Forall_cons in Hfresh as [[Hp1 Hp2] Hfresh].
        constructor; [|by apply IH].
        unfold skipped, once in *. by simplify_map_eq.
      - unfold once. destruct (decide (field src = target self)) as [->|Hst];
          by simplify_map_eq. }
    rewrite Hagain. do 3 f_equal.
    rewrite (insert_id once (target self) v) by (unfold once; by simplify_map_eq).
    apply insert_id. unfold once. by simplify_map_eq.
Qed.

Lemma combine_sources_reapplication_witness :
  ∃ once,
    process_dataset_entry combine_text_pc data_entry_pc
      = Ok [mkDataEntry once None]
    ∧ once !! py "text" = Some (VStr (py "A"))
    ∧ process_dataset_entry combine_text_pc once = Ok [mkDataEntry once None].
Proof.
  apply (combine_sources_reapplication combine_text_pc data_entry_pc
           [] (mkSource (py "text_pc") (py "original")) [] (VStr (py "A")));
    [reflexivity | constructor | reflexivity | discriminate | constructor
    | discriminate].
Defined.
End CombineIdempotence.

(** ** DuplicateFields and RenameFields *)

Module FieldPairs.

(** *** DuplicateFields *)

Lemma duplicate_untouched (items : list (str * str)) (cur out : Entry) (k : str) :
  DuplicateFields.for_items items cur = Ok out →
  k ∉ items.*2 → out !! k = cur !! k.
Proof.
  revert cur. induction items as [|[src tgt] items IH]; intros cur; simpl.
  - by intros [= ->].
  - destruct (contains cur src); simpl; [|done].
    intros (v & Hv & Hrest)%bind_Ok Hk.
    apply not_elem_of_cons in Hk as [Hk1 Hk2].
    rewrite (IH _ Hrest Hk2). by rewrite lookup_insert_ne.
Qed.



(** *** RenameFields *)

Lemma rename_untouched (items : list (str * str)) (cur out : Entry) (k : str) :
  RenameFields.for_items items cur = Ok out →
  k ∉ items.*1 → k ∉ items.*2 → out !! k = cur !! k.
Proof.
  revert cur. induction items as [|[src tgt] items IH]; intros cur; simpl.
  - by intros [= ->].
  - destruct (contains cur src); simpl; [|done].
    intros (v & Hv & Hrest)%bind_Ok Hk Hk'.
    apply not_elem_of_cons in Hk as [Hk1 Hk2].
    apply not_elem_of_cons in Hk' as [Hk1' Hk2'].
    rewrite (IH _ Hrest Hk2 Hk2').
    by rewrite lookup_delete_ne, lookup_insert_ne.
Qed.









Lemma duplicate_copies (items : list (str * str)) (cur : Entry) :
  (∀ src, src ∈ items.*1 → is_Some (cur !! src)) →
  NoDup items.*2 → no_later_source items →
  ∃ out, DuplicateFields.for_items items cur = Ok out
    ∧ ∀ src tgt, (src, tgt) ∈ items → out !! tgt = cur !! src.
Proof.
  revert cur. induction items as [|[s t] items IH];
    intros cur Hpresent Hnd Hlater.
  - exists cur. split; [done|]. by intros ?? ?%elem_of_nil.
  - simpl in *. apply NoDup_cons in Hnd as [Ht Hnd].
    destruct Hlater as [Hts Hlater].
    destruct (Hpresent s) as [v Hv]; [by left|].
    rewrite (proj2 (contains_true _ _)) by eauto.
    rewrite (proj2 (getitem_Ok _ _ _) Hv). simpl.
    destruct (IH (<[t := v]> cur)) as (out & Hout & Hcopy); [|done|done|].
    + intros src Hsrc. rewrite lookup_insert_is_Some'. right.
      apply Hpresent. by right.
    + exists out. split; [done|].
      intros src tgt [[= -> ->]|Hin]%elem_of_cons.
      * rewrite (duplicate_untouched _ _ _ _ Hout Ht).
        by rewrite lookup_insert_eq.
      * rewrite (Hcopy _ _ Hin). apply lookup_insert_ne.
        intros <-. apply Hts.
        by apply (list_elem_of_fmap_2 fst _ _ Hin).
Qed.

Lemma rename_moves (items : list (str * str)) (cur : Entry) :
  NoDup items.*1 →
  (∀ src, src ∈ items.*1 → is_Some (cur !! src)) →
  NoDup items.*2 → (∀ k, k ∈ items.*2 → k ∉ items.*1) →
  ∃ out, RenameFields.for_items items cur = Ok out
    ∧ ∀ src tgt, (src, tgt) ∈ items →
        out !! tgt = cur !! src ∧ out !! src = None.
Proof.
  revert cur. induction items as [|[s t] items IH];
    intros cur Hsrcs Hpresent Hnd Hdisj.
  - exists cur. split; [done|]. by intros ?? ?%elem_of_nil.
  - simpl in *. apply NoDup_cons in Hnd as [Ht Hnd].
    apply NoDup_cons in Hsrcs as [Hs Hsrcs].
    destruct (Hpresent s) as [v Hv]; [by left|].
    rewrite (proj2 (contains_true _ _)) by eauto.
    rewrite (proj2 (getitem_Ok _ _ _) Hv). simpl.
    assert (Hts : t ≠ s) by (intros ->; apply (Hdisj s); by left).
    assert (Ht' : t ∉ items.*1) by (intros ?; apply (Hdisj t); [by left | by right]).
    assert (Hs' : s ∉ items.*2) by (intros ?; apply (Hdisj s); [by right | by left]).
    destruct (IH (delete s (<[t := v]> cur))) as (out & Hout & Hmove);
      [done| |done| |].
    + intros src Hsrc.
      rewrite lookup_delete_ne by (by intros ->).
      rewrite lookup_insert_is_Some'. right. apply Hpresent. by right.
    + intros k Hk Hk'. apply (Hdisj k); by right.
    + exists out. split; [done|].
      intros src tgt [[= -> ->]|Hin]%elem_of_cons.
      * rewrite !(rename_untouched _ _ _ _ Hout) by done.
        rewrite lookup_delete_eq, lookup_delete_ne, lookup_insert_eq by done.
        done.
      * destruct (Hmove _ _ Hin) as [-> ->]. split; [|done].
        pose proof (list_elem_of_fmap_2 fst _ _ Hin) as Hsrc. simpl in Hsrc.
        rewrite lookup_delete_ne by (by intros ->).
        apply lookup_insert_ne. by intros <-.
Qed.

(** C5 (amended). Let all source fields be present in the entry and the
    target fields be pairwise distinct.  If no target field is the source
    field of a later pair, the entry returned by DuplicateFields has each
    target field equal to the value the corresponding source field had in
    the original entry.  If no target field is a source field at all, the
    entry returned by RenameFields has each target field equal to that
    value and each source field absent. *)
Theorem targets_hold_source_values :
  (∀ (self : DuplicateFields.t) (data_entry : Entry),
     let items := DuplicateFields.duplicate_fields self in
     (∀ src, src ∈ items.*1 → is_Some (data_entry !! src)) →
     NoDup items.*2 → no_later_source items →
     ∃ out,
       DuplicateFields.process_dataset_entry self data_entry
       = Ok [mkDataEntry out None]
       ∧ ∀ src tgt, (src, tgt) ∈ items → out !! tgt = data_entry !! src)
  ∧ (∀ (self : RenameFields.t) (data_entry : Entry),
       let items := RenameFields.rename_fields self in
       NoDup items.*1 →
       (∀ src, src ∈ items.*1 → is_Some (data_entry !! src)) →
       NoDup items.*2 → (∀ k, k ∈ items.*2 → k ∉ items.*1) →
       ∃ out,
         RenameFields.process_dataset_entry self data_entry
         = Ok [mkDataEntry out None]
         ∧ ∀ src tgt, (src, tgt) ∈ items →
             out !! tgt = data_entry !! src ∧ out !! src = None).
Proof.
  split.
  - intros self data_entry items Hpresent Hnd Hlater.
    destruct (duplicate_copies items data_entry Hpresent Hnd Hlater)
      as (out & Hout & Hcopy).
    exists out. split; [|done].
    unfold DuplicateFields.process_dataset_entry. fold items.
    by rewrite Hout.
  - intros self data_entry items Hsrcs Hpresent Hnd Hdisj.
    destruct (rename_moves items data_entry Hsrcs Hpresent Hnd Hdisj)
      as (out & Hout & Hmove).
    exists out. split; [|done].
    unfold RenameFields.process_dataset_entry. fold items.
    by rewrite Hout.
Qed.

(** All sources are present in [{"a": 1, "b": 2}], but with the pairs
    a -> b, b -> c the duplicate of [b] holds the value copied from [a], and
    the swapping rename a -> b, b -> a returns [{"a": 1}]: the target [b] is
    gone and the source [a] is still there. *)
Lemma targets_hold_source_values_counterexample :
  (∀ src, src ∈ (DuplicateFields.duplicate_fields duplicate_chain).*1 →
     is_Some (data_entry_ab !! src))
  ∧ DuplicateFields.process_dataset_entry duplicate_chain data_entry_ab
    = Ok [mkDataEntry data_entry_abc None]
  ∧ (py "b", py "c") ∈ DuplicateFields.duplicate_fields duplicate_chain
  ∧ data_entry_abc !! py "c" ≠ data_entry_ab !! py "b"
  ∧ (∀ src, src ∈ (RenameFields.rename_fields rename_swap).*1 →
       is_Some (data_entry_ab !! src))
  ∧ RenameFields.process_dataset_entry rename_swap data_entry_ab
    = Ok [mkDataEntry data_entry_a None]
  ∧ (py "a", py "b") ∈ RenameFields.rename_fields rename_swap
  ∧ data_entry_a !! py "b" ≠ data_entry_ab !! py "a"
  ∧ data_entry_a !! py "a" ≠ None.
Proof.
  assert (Hpresent : ∀ src, src ∈ [py "a"; py "b"] →
            is_Some (data_entry_ab !! src)).
  { intros src [->|[->|[]%elem_of_nil]%elem_of_cons]%elem_of_cons;
      by eexists. }
  repeat split; try reflexivity; try discriminate; try exact Hpresent;
    simpl; set_solver.
Qed.

Lemma targets_hold_source_values_witness :
  (∃ out,
     DuplicateFields.process_dataset_entry duplicate_one data_entry_a2
     = Ok [mkDataEntry out None]
     ∧ ∀ src tgt, (src, tgt) ∈ DuplicateFields.duplicate_fields duplicate_one →
         out !! tgt = data_entry_a2 !! src)
  ∧ (∃ out,
       RenameFields.process_dataset_entry rename_one data_entry_a2
       = Ok [mkDataEntry out None]
       ∧ ∀ src tgt, (src, tgt) ∈ RenameFields.rename_fields rename_one →
           out !! tgt = data_entry_a2 !! src ∧ out !! src = None).
Proof.
  assert (Hpresent : ∀ src, src ∈ [py "a"] → is_Some (data_entry_a2 !! src)).
  { intros src ->%list_elem_of_singleton. by eexists. }
  assert (Hdisj : ∀ k, k ∈ [py "b"] → k ∉ [py "a"]).
  { intros k ->%list_elem_of_singleton [=]%list_elem_of_singleton. }
  split.
  - apply (proj1 targets_hold_source_values duplicate_one data_entry_a2);
      [exact Hpresent | apply NoDup_singleton
      | split; [apply not_elem_of_nil | exact I]].
  - apply (proj2 targets_hold_source_values rename_one data_entry_a2);
      [apply NoDup_singleton | exact Hpresent | apply NoDup_singleton
      | exact Hdisj].
Defined.

End FieldPairs.

(** ** Fields a processor leaves alone *)

Module Preservation.
Import FieldPairs SplitFacts.

Lemma combine_untouched (self : CombineSources.t) (todo : list CombineSources.source)
    (cur out : Entry) (k : str) :
  CombineSources.for_sources self cur todo = Ok out →
  k ≠ CombineSources.target self → k ≠ CombineSources.target_origin self →
  out !! k = cur !! k.
Proof.
  intros Hout Hk1 Hk2. induction todo as [|src todo IH]; simpl in Hout.
  - injection Hout as <-. by rewrite !lookup_insert_ne.
  - destruct (CombineSources.available self cur src); [|by apply IH].
    apply bind_Ok in Hout as (v & _ & [= <-]).
    by rewrite !lookup_insert_ne.
Qed.

Lemma split_items (self : SplitOnFixedDuration.t) (data_entry : Entry)
    (output : list (option DataEntry)) (item : option DataEntry) :
  SplitOnFixedDuration.process_dataset_entry self data_entry = Ok output →
  item ∈ output →
  ∃ duration offset,
    item = Some (SplitOnFixedDuration.modified_entry self data_entry
                   duration offset).
Proof.
  unfold SplitOnFixedDuration.process_dataset_entry.
  intros (v & _ & (d & _ & Hout)%bind_Ok)%bind_Ok.
  destruct (Qeq_bool _ _); [done|].
  rewrite (fill_replicate
    (λ i, SplitOnFixedDuration.modified_entry self data_entry
            (SplitOnFixedDuration.segment_duration self)
            (inject_Z (Z.of_nat i)
             * SplitOnFixedDuration.segment_duration self)%Q)) in Hout.
  injection Hout as <-.
  destruct (negb _ && negb _).
  - intros [(i & -> & _)%list_elem_of_fmap | ->%list_elem_of_singleton]%elem_of_app;
      by eexists _, _.
  - intros (i & -> & _)%list_elem_of_fmap. by eexists _, _.
Qed.

(** C7. Whatever per-entry processor runs (CombineSources,
    AddConstantFields, DuplicateFields, RenameFields, SplitOnFixedDuration,
    ChangeToRelativePath, RemoveExtraSymbols), a field of the input entry
    that the processor's configuration does not name as written, renamed or
    dropped is present in every output entry with its original value. *)
Theorem unconfigured_fields_preserved
    (relpath : str → str → result str) (upper : char → str)
    (processor : Processor) (data_entry : Entry)
    (output : list (option DataEntry)) (k : str) :
  process_dataset_entry relpath upper processor data_entry = Ok output →
  k ∉ configured_fields processor →
  ∀ item, item ∈ output →
    ∃ out, item = Some out ∧ data out !! k = data_entry !! k.
Proof.
  intros Hrun Hk item Hitem.
  destruct processor as [self|self|self|self|self|self|self];
    simpl in Hrun, Hk.
  - apply fmap_Ok in Hrun as (outs & Hrun & ->).
    apply bind_Ok in Hrun as (out & Hout & [= <-]).
    apply list_elem_of_singleton in Hitem as ->.
    eexists. split; [done|]. simpl.
    apply (combine_untouched _ _ _ _ _ Hout); set_solver.
  - injection Hrun as <-. apply list_elem_of_singleton in Hitem as ->.
    eexists. split; [done|]. simpl.
    apply lookup_union_r. by apply not_elem_of_dom.
  - apply fmap_Ok in Hrun as (outs & Hrun & ->).
    apply bind_Ok in Hrun as (out & Hout & [= <-]).
    apply list_elem_of_singleton in Hitem as ->.
    eexists. split; [done|]. simpl.
    apply (duplicate_untouched _ _ _ _ Hout). set_solver.
  - apply fmap_Ok in Hrun as (outs & Hrun & ->).
    apply bind_Ok in Hrun as (out & Hout & [= <-]).
    apply list_elem_of_singleton in Hitem as ->.
    eexists. split; [done|]. simpl.
    apply not_elem_of_union in Hk as [Hk1 Hk2].
    rewrite elem_of_list_to_set in Hk1, Hk2.
    by apply (rename_untouched _ _ _ _ Hout).
  - destruct (split_items _ _ _ _ Hrun Hitem) as (dur & off & ->).
    eexists. split; [done|].
    destruct (modified_entry_segment self data_entry dur off)
      as (seg & [= <-] & _ & _ & Hother).
    rewrite Hother by set_solver.
    destruct (SplitOnFixedDuration.drop_text self); [|done]. simpl.
    case_bool_decide; [set_solver|done].
  - apply fmap_Ok in Hrun as (outs & Hrun & ->).
    unfold ChangeToRelativePath.process_dataset_entry in Hrun.
    apply bind_Ok in Hrun as (v & _ & Hrun).
    destruct v as [path| |]; try done.
    apply bind_Ok in Hrun as (rel & _ & [= <-]).
    apply list_elem_of_singleton in Hitem as ->.
    eexists. split; [done|]. simpl.
    apply lookup_insert_ne. set_solver.
  - apply fmap_Ok in Hrun as (outs & Hrun & ->).
    unfold RemoveExtraSymbols.process_dataset_entry in Hrun.
    apply bind_Ok in Hrun as (v & _ & Hrun).
    destruct v as [text| |]; try (by destruct (_ || _)).
    injection Hrun as <-.
    apply list_elem_of_singleton in Hitem as ->.
    by eexists.
Qed.

Lemma unconfigured_fields_preserved_witness :
  ∃ output,
    process_dataset_entry (λ _ _, Raise PathError)
      RemoveExtraSymbols.ascii_upper (PSplitOnFixedDuration split_3)
      data_entry_speaker = Ok output
    ∧ length output = 3
    ∧ ∀ item, item ∈ output →
        ∃ out, item = Some out
          ∧ data out !! py "speaker" = data_entry_speaker !! py "speaker".
Proof.
  eexists. split; [reflexivity|]. split; [reflexivity|].
  apply (unconfigured_fields_preserved (λ _ _, Raise PathError)
           RemoveExtraSymbols.ascii_upper (PSplitOnFixedDuration split_3)
           data_entry_speaker _ (py "speaker")); [reflexivity|].
  simpl. rewrite !not_elem_of_union, !elem_of_singleton.
  repeat split; discriminate.
Defined.

End Preservation.

(** ** RemoveExtraSymbols *)

Module ReplaceFacts.

(** Deleting occurrences only takes characters away. *)
Lemma replace_from_delete_sublist (old : str) (skip : nat) (text : str) :
  replace_from old [] skip text `sublist_of` text.
Proof.
  revert skip. induction text as [|c text IH]; intros skip; simpl.
  - constructor.
  - destruct skip as [|skip]; [|by apply sublist_cons].
    destruct (starts_with old (c :: text)).
    + simpl. by apply sublist_cons.
    + by apply sublist_skip.
Qed.

Lemma replace_delete_sublist (text old : str) :
  replace text old [] `sublist_of` text.
Proof.
  destruct old as [|c old]; simpl.
  - induction text as [|d text IH]; simpl; [constructor|].
    by apply sublist_skip.
  - apply (replace_from_delete_sublist (c :: old) 0).
Qed.

(** Deleting a one-character string leaves no occurrence of it. *)
Lemma replace_delete_char (text : str) (x : char) :
  x ∉ replace text [x] [].
Proof.
  unfold replace. induction text as [|c text IH]; simpl.
  - apply not_elem_of_nil.
  - case_bool_decide as Hx; simpl; [done|].
    apply not_elem_of_cons. split; [done|exact IH].
Qed.

End ReplaceFacts.

Module StripSymbols.
Import RemoveExtraSymbols ReplaceFacts.

Section WithUpper.
Variable upper : char → str.

Lemma delete_step_absent (text : str) (x y : char) :
  y ∉ text → y ∉ replace (replace text [x] []) (upper x) [].
Proof.
  intros Hy Hin. apply Hy.
  eapply elem_of_sublist; [|apply replace_delete_sublist].
  eapply elem_of_sublist; [exact Hin|apply replace_delete_sublist].
Qed.

Lemma delete_loop_absent (ignore text : str) (y : char) :
  y ∉ text →
  y ∉ foldl (λ text x,
               let text := replace text [x] [] in
               let text := replace text (upper x) [] in
               text) text ignore.
Proof.
  revert text. induction ignore as [|x ignore IH]; intros text Hy; [done|].
  simpl. apply IH. by apply delete_step_absent.
Qed.

Lemma delete_loop_removes (ignore text : str) (x : char) :
  x ∈ ignore →
  x ∉ foldl (λ text x,
               let text := replace text [x] [] in
               let text := replace text (upper x) [] in
               text) text ignore.
Proof.
  revert text. induction ignore as [|x' ignore IH]; intros text Hx.
  - by apply elem_of_nil in Hx.
  - simpl. apply elem_of_cons in Hx as [<-|Hx]; [|by apply IH].
    apply delete_loop_absent. intros Hin.
    apply (replace_delete_char text x).
    eapply elem_of_sublist; [exact Hin|apply replace_delete_sublist].
Qed.

(** The text [clear_text] computes holds none of the symbols to ignore. *)
Lemma clear_text_removes (text ignore lang : str) (x : char) :
  x ∈ ignore → x ∉ clear_text upper text ignore lang.
Proof. intros Hx. unfold clear_text. by apply delete_loop_removes. Qed.

(** What the processor returns on an entry whose text field is a string. *)
Lemma process_dataset_entry_text (self : t) (data_entry : Entry)
    (original_text : str) :
  data_entry !! text_key self = Some (VStr original_text) →
  process_dataset_entry upper self data_entry
  = Ok [mkDataEntry data_entry
          (Some (Z.of_nat (length original_text)
                 - Z.of_nat (length (filter_text upper self original_text)))%Z)].
Proof.
  intros Htext. unfold process_dataset_entry.
  by rewrite (proj2 (getitem_Ok _ _ _) Htext).
Qed.

(** C2 (what the code does). For every entry that contains the configured
    text field with a string, RemoveExtraSymbols returns the entry it was
    given: [cleaned_text] is computed and only used for the metric.  The
    cleaned text holds no configured symbol, but the text field of the
    returned entry keeps the original text, which differs from the cleaned
    text whenever it holds a configured symbol. *)
Theorem remove_extra_symbols_returns_input (self : t) (data_entry : Entry)
    (original_text : str) :
  data_entry !! text_key self = Some (VStr original_text) →
  process_dataset_entry upper self data_entry
  = Ok [mkDataEntry data_entry
          (Some (Z.of_nat (length original_text)
                 - Z.of_nat (length (filter_text upper self original_text)))%Z)]
  ∧ (∀ x, x ∈ ignore_symbols self →
       x ∉ filter_text upper self original_text)
  ∧ (∀ x, x ∈ ignore_symbols self → x ∈ original_text →
       VStr original_text ≠ VStr (filter_text upper self original_text)).
Proof.
  intros Htext. split; [|split].
  - by apply process_dataset_entry_text.
  - intros x Hx. by apply clear_text_removes.
  - intros x Hx Hin [= Heq]. rewrite Heq in Hin.
    by apply (clear_text_removes original_text _ (target_language self)) in Hx.
Qed.

(** C8 (what the code does). Applying RemoveExtraSymbols twice with the
    same configuration returns the same entry both times, and the second
    application reports the same metric as the first, the number of
    characters [filter_text] removes from the never updated text: 1, not 0,
    for the text ["a,b"] and the symbol [","]. *)
Theorem remove_extra_symbols_second_pass (self : t) (data_entry : Entry)
    (original_text : str) :
  data_entry !! text_key self = Some (VStr original_text) →
  ∃ once metric,
    process_dataset_entry upper self data_entry
      = Ok [mkDataEntry once (Some metric)]
    ∧ process_dataset_entry upper self once
      = Ok [mkDataEntry once (Some metric)]
    ∧ metric
      = (Z.of_nat (length original_text)
         - Z.of_nat (length (filter_text upper self original_text)))%Z.
Proof.
  intros Htext. eexists data_entry, _.
  rewrite (process_dataset_entry_text _ _ _ Htext). done.
Qed.

End WithUpper.

Lemma remove_extra_symbols_returns_input_witness :
  process_dataset_entry ascii_upper strip_comma data_entry_comma
    = Ok [mkDataEntry data_entry_comma (Some 1%Z)]
  ∧ data_entry_comma !! py "text" = Some (VStr (py "a,b"))
  ∧ filter_text ascii_upper strip_comma (py "a,b") = py "ab".
Proof.
  split; [|split; reflexivity].
  exact (proj1 (remove_extra_symbols_returns_input ascii_upper strip_comma
                  data_entry_comma (py "a,b") eq_refl)).
Defined.

Lemma remove_extra_symbols_second_pass_witness :
  ∃ once metric,
    process_dataset_entry ascii_upper strip_comma data_entry_comma
      = Ok [mkDataEntry once (Some metric)]
    ∧ process_dataset_entry ascii_upper strip_comma once
      = Ok [mkDataEntry once (Some metric)]
    ∧ metric = 1%Z.
Proof.
  exact (remove_extra_symbols_second_pass ascii_upper strip_comma
           data_entry_comma (py "a,b") eq_refl).
Defined.

End StripSymbols.

(** ** CreateTokenizer *)

Module TokenizerCommand.
Import CreateTokenizer.

Section WithOs.
Variable path_join : list str → str.
Variable path_exists : str → bool.
Variable sys_executable : str.

(** C10. The command list of CreateTokenizer consists of twelve fixed
    arguments followed by the flag ["--no_lower_case"] exactly when the
    [lower_case] constructor argument is true and by nothing when it is
    false: the options after the fixed arguments contain the flag if and
    only if [lower_case] is true, and so does the whole list whenever none
    of the twelve fixed arguments (paths and names the caller supplies) is
    itself that string. *)
Theorem no_lower_case_flag_tracks_lower_case (self : t) :
  ∃ fixed,
    length fixed = 12
    ∧ get_command_to_run path_join path_exists sys_executable self
      = fixed ++ (if lower_case self then [py "--no_lower_case"] else [])
    ∧ (py "--no_lower_case"
         ∈ drop 12 (get_command_to_run path_join path_exists sys_executable
                      self)
       ↔ lower_case self = true)
    ∧ (py "--no_lower_case" ∉ fixed →
       py "--no_lower_case"
         ∈ get_command_to_run path_join path_exists sys_executable self
       ↔ lower_case self = true).
Proof.
  unfold get_command_to_run. cbv zeta.
  match goal with
  | |- context [if _ then ?c ++ _ else _] => set (command := c)
  end.
  exists (str_of <$> command). split; [reflexivity|].
  destruct (lower_case self).
  - split; [by rewrite fmap_app|]. split.
    + split; [done|]. intros _. by apply list_elem_of_singleton.
    + intros _. split; [done|]. intros _.
      rewrite fmap_app. apply elem_of_app. right.
      by apply list_elem_of_singleton.
  - split; [by rewrite app_nil_r|]. split.
    + split; [by intros ?%elem_of_nil | done].
    + intros Hfixed. split; [|done].
      intros Hin. by destruct Hfixed.
Qed.

End WithOs.

Lemma no_lower_case_flag_tracks_lower_case_witness :
  (py "--no_lower_case"
     ∈ get_command_to_run join_with_slash (λ _, false) (py "python")
         (tokenizer_defaults true))
  ∧ (py "--no_lower_case"
       ∉ get_command_to_run join_with_slash (λ _, false) (py "python")
           (tokenizer_defaults false)).
Proof.
  split.
  - destruct (no_lower_case_flag_tracks_lower_case join_with_slash
                (λ _, false) (py "python") (tokenizer_defaults true))
      as (fixed & _ & -> & _ & _).
    apply elem_of_app. right. by apply list_elem_of_singleton.
  - destruct (no_lower_case_flag_tracks_lower_case join_with_slash
                (λ _, false) (py "python") (tokenizer_defaults false))
      as (fixed & Hlen & Heq & _ & Hiff).
    intros Hin. 
    assert (Hfixed : py "--no_lower_case" ∉ fixed).
    { simpl in Heq. rewrite app_nil_r in Heq. subst fixed.
      vm_compute. intros H. repeat (apply elem_of_cons in H as [[=]|H]).
      by apply elem_of_nil in H. }
    by apply Hiff in Hin.
Defined.

End TokenizerCommand.

(** ** SplitOnFixedDuration: errors and edge cases *)

Module SplitEdges.
Import SplitOnFixedDuration SplitFacts SplitProperties.



















(** X6. Every item SplitOnFixedDuration returns is a [DataEntry] without
    metrics; under [drop_text] none of them has a [text] field, otherwise
    each has the [text] of the input entry (or lacks it as the input does). *)
Theorem split_text_and_metrics (self : t) (data_entry : Entry)
    (output : list (option DataEntry)) :
  process_dataset_entry self data_entry = Ok output →
  ∀ item, item ∈ output →
    ∃ seg, item = Some seg
      ∧ metrics seg = None
      ∧ data seg !! py "text"
        = if drop_text self then None else data_entry !! py "text".
Proof.
  intros Hout item Hitem.
  destruct (Preservation.split_items _ _ _ _ Hout Hitem) as (dur & off & ->).
  eexists. split; [done|]. split; [done|].
  destruct (modified_entry_segment self data_entry dur off)
    as (seg & [= <-] & _ & _ & Hother).
  rewrite Hother by discriminate.
  by destruct (drop_text self).
Qed.

Lemma split_text_and_metrics_witness :
  Forall (λ item, ∃ seg, item = Some seg ∧ metrics seg = None
                    ∧ data seg !! py "text" = None)
    [Some (modified_entry split_3 data_entry_speaker 3 0);
     Some (modified_entry split_3 data_entry_speaker 3 3);
     Some (modified_entry split_3 data_entry_speaker (3 # 2) 6)].
Proof.
  apply Forall_forall.
  apply (split_text_and_metrics split_3 data_entry_speaker). reflexivity.
Defined.

End SplitEdges.

(** ** CombineSources and AddConstantFields: totality and composition *)

Module CombineEdges.
Import CombineSources CombineFacts.

(** Either every source is passed over, or the list splits at the first
    available one. *)
Lemma first_available (self : t) (data_entry : Entry) (l : list source) :
  Forall (skipped self data_entry) l
  ∨ ∃ pre src post v,
      l = pre ++ src :: post
      ∧ Forall (skipped self data_entry) pre
      ∧ data_entry !! field src = Some v ∧ v ≠ VStr (na_indicator self).
Proof.
  induction l as [|src l IH]; [by left|].
  destruct (available self data_entry src) eqn:Ha.
  - right. apply available_true in Ha as (v & Hv & Hne).
    by exists [], src, l, v.
  - apply available_false in Ha.
    destruct IH as [IH | (pre & src' & post & v & -> & Hpre & Hv & Hne)].
    + left. by constructor.
    + right. exists (src :: pre), src', post, v.
      split; [done|]. split; [by constructor|done].
Qed.

Lemma skipped_not_available (self : t) (data_entry : Entry) (src : source) v :
  skipped self data_entry src →
  data_entry !! field src = Some v → v ≠ VStr (na_indicator self) → False.
Proof. intros [Hs | Hs] Hv Hne; congruence. Qed.

(** X7. CombineSources never fails: for every configuration and entry it
    returns one entry in which the target field is set.  The target holds
    the not-available indicator exactly when no source qualifies, and then
    the origin field holds the indicator too; otherwise some configured
    source supplied the target's value and its label is the origin. *)
Theorem combine_always_returns (self : t) (data_entry : Entry) :
  ∃ out,
    process_dataset_entry self data_entry = Ok [mkDataEntry out None]
    ∧ is_Some (out !! target self)
    ∧ (out !! target self = Some (VStr (na_indicator self))
       ↔ Forall (skipped self data_entry) (sources self))
    ∧ (Forall (skipped self data_entry) (sources self) →
       out !! target_origin self = Some (VStr (na_indicator self)))
    ∧ (¬ Forall (skipped self data_entry) (sources self) →
       ∃ src, src ∈ sources self
         ∧ out !! target self = data_entry !! field src
         ∧ out !! target_origin self = Some (VStr (origin_label src))).
Proof.
  pose proof (CombineIdempotence.target_ne_origin self) as Hto.
  destruct (first_available self data_entry (sources self))
    as [Hall | (pre & src & post & v & Hsrc & Hpre & Hv & Hne)].
  - eexists. split; [by apply process_none_available|].
    rewrite lookup_insert_eq, lookup_insert_ne, lookup_insert_eq by done.
    split; [by eexists|]. split; [done|]. split; [done|]. by intros [].
  - eexists. split; [by eapply process_first_available|].
    rewrite lookup_insert_eq, lookup_insert_ne, lookup_insert_eq by done.
    assert (Hnot : ¬ Forall (skipped self data_entry) (sources self)).
    { rewrite Hsrc, Forall_app, Forall_cons.
      intros (_ & Hs & _). by eapply skipped_not_available. }
    split; [by eexists|]. split; [|split].
    + split; [by intros [= ->] | done].
    + done.
    + intros _. exists src. split; [|done].
      rewrite Hsrc. apply elem_of_app. right. by left.
Qed.

(** The scan reads the configuration's target and indicator only. *)
Lemma for_sources_config (self self' : t) (data_entry : Entry) (l : list source) :
  target self = target self' → na_indicator self = na_indicator self' →
  for_sources self data_entry l = for_sources self' data_entry l.
Proof.
  intros Ht Hna. induction l as [|src l IH]; simpl.
  - unfold target_origin. by rewrite Ht, Hna.
  - unfold available, target_origin. rewrite Ht, Hna, IH. done.
Qed.

(** X8. Appending sources to the end of the preference list does not change
    the result for an entry on which one of the existing sources qualifies;
    for an entry on which none does, the result is that of the appended
    sources alone. *)
Theorem combine_lower_priority_ignored (self : t) (data_entry : Entry)
    (extra : list source) :
  let extended := mk (sources self ++ extra) (target self) (na_indicator self) in
  (¬ Forall (skipped self data_entry) (sources self) →
   process_dataset_entry extended data_entry
   = process_dataset_entry self data_entry)
  ∧ (Forall (skipped self data_entry) (sources self) →
     process_dataset_entry extended data_entry
     = process_dataset_entry (mk extra (target self) (na_indicator self))
                             data_entry).
Proof.
  intros extended. split.
  - intros Hnot.
    destruct (first_available self data_entry (sources self))
      as [Hall | (pre & src & post & v & Hsrc & Hpre & Hv & Hne)]; [done|].
    rewrite (process_first_available self data_entry pre src post v) by done.
    apply (process_first_available extended data_entry pre src (post ++ extra) v);
      try done.
    simpl. by rewrite Hsrc, <- app_assoc.
  - intros Hall. unfold process_dataset_entry. simpl.
    rewrite (for_sources_skip extended) by done.
    by rewrite (for_sources_config extended
                  (mk extra (target self) (na_indicator self))).
Qed.

Lemma combine_lower_priority_ignored_witness :
  process_dataset_entry
    (mk (sources combine_text_pc ++ [mkSource (py "text") (py "no_pc")])
        (py "text") (py "n/a"))
    data_entry_pc
  = process_dataset_entry combine_text_pc data_entry_pc
  ∧ process_dataset_entry
      (mk (sources combine_text_pc ++ [mkSource (py "text") (py "no_pc")])
          (py "text") (py "n/a"))
      data_entry_na
    = process_dataset_entry
        (mk [mkSource (py "text") (py "no_pc")] (py "text") (py "n/a"))
        data_entry_na.
Proof.
  split.
  - apply (combine_lower_priority_ignored combine_text_pc data_entry_pc
             [mkSource (py "text") (py "no_pc")]).
    intros [[H|H] _]%Forall_cons; discriminate H.
  - apply (combine_lower_priority_ignored combine_text_pc data_entry_na
             [mkSource (py "text") (py "no_pc")]).
    constructor; [right; reflexivity | constructor].
Defined.

End CombineEdges.

Module ConstantFields.
Import AddConstantFields.

(** X9. AddConstantFields always returns one entry, in which every
    configured field holds its configured value (an existing field of that
    name is overwritten) and every other field is as in the input; running
    it again on its output changes nothing. *)
Theorem add_constant_fields_overwrite (self : t) (data_entry : Entry) :
  ∃ out,
    process_dataset_entry self data_entry = Ok [mkDataEntry out None]
    ∧ (∀ k v, fields self !! k = Some v → out !! k = Some v)
    ∧ (∀ k, fields self !! k = None → out !! k = data_entry !! k)
    ∧ process_dataset_entry self out = Ok [mkDataEntry out None].
Proof.
  eexists. split; [reflexivity|]. split; [|split].
  - intros k v Hk. by apply lookup_union_Some_l.
  - intros k Hk. by apply lookup_union_r.
  - unfold process_dataset_entry.
    by rewrite (assoc_L (∪)), (idemp_L (∪)).
Qed.

(** X10. Running AddConstantFields with one mapping and then with a second
    one gives the same result as running it once with the second mapping
    merged over the first. *)
Theorem add_constant_fields_compose (first second : t) (data_entry : Entry) :
  ∃ once,
    process_dataset_entry first data_entry = Ok [mkDataEntry once None]
    ∧ process_dataset_entry second once
      = process_dataset_entry (mk (fields second ∪ fields first)) data_entry.
Proof.
  eexists. split; [reflexivity|].
  unfold process_dataset_entry. simpl. by rewrite (assoc_L (∪)).
Qed.

End ConstantFields.

(** ** DuplicateFields and RenameFields: composition and round trips *)

Module FieldPairsMore.
Import FieldPairs.

(** The processors, from their loops. *)
Lemma duplicate_process (self : DuplicateFields.t) (data_entry : Entry) :
  DuplicateFields.process_dataset_entry self data_entry
  = (λ out, [mkDataEntry out None])
      <$> DuplicateFields.for_items (DuplicateFields.duplicate_fields self)
            data_entry.
Proof.
  unfold DuplicateFields.process_dataset_entry.
  by destruct (DuplicateFields.for_items _ _).
Qed.

Lemma rename_process (self : RenameFields.t) (data_entry : Entry) :
  RenameFields.process_dataset_entry self data_entry
  = (λ out, [mkDataEntry out None])
      <$> RenameFields.for_items (RenameFields.rename_fields self) data_entry.
Proof.
  unfold RenameFields.process_dataset_entry.
  by destruct (RenameFields.for_items _ _).
Qed.

(** A concatenated configuration runs its parts one after the other. *)
Lemma duplicate_app (l1 l2 : list (str * str)) (cur : Entry) :
  DuplicateFields.for_items (l1 ++ l2) cur
  = DuplicateFields.for_items l1 cur ≫= DuplicateFields.for_items l2.
Proof.
  revert cur. induction l1 as [|[s t] l1 IH]; intros cur; simpl; [done|].
  destruct (contains cur s); simpl; [|done].
  destruct (getitem cur s); simpl; [apply IH|done].
Qed.

Lemma rename_app (l1 l2 : list (str * str)) (cur : Entry) :
  RenameFields.for_items (l1 ++ l2) cur
  = RenameFields.for_items l1 cur ≫= RenameFields.for_items l2.
Proof.
  revert cur. induction l1 as [|[s t] l1 IH]; intros cur; simpl; [done|].
  destruct (contains cur s); simpl; [|done].
  destruct (getitem cur s); simpl; [apply IH|done].
Qed.

(** X11. DuplicateFields and RenameFields with a configuration [l1 ++ l2]
    behave as the processor with [l1] followed by the processor with [l2]
    on its result; an error of the first part is the error of the whole. *)
Theorem field_pairs_compose (l1 l2 : list (str * str)) (data_entry : Entry) :
  (∀ mid,
     DuplicateFields.process_dataset_entry (DuplicateFields.mk l1) data_entry
       = Ok [mkDataEntry mid None] →
     DuplicateFields.process_dataset_entry (DuplicateFields.mk (l1 ++ l2))
       data_entry
     = DuplicateFields.process_dataset_entry (DuplicateFields.mk l2) mid)
  ∧ (∀ e,
       DuplicateFields.process_dataset_entry (DuplicateFields.mk l1) data_entry
         = Raise e →
       DuplicateFields.process_dataset_entry (DuplicateFields.mk (l1 ++ l2))
         data_entry = Raise e)
  ∧ (∀ mid,
       RenameFields.process_dataset_entry (RenameFields.mk l1) data_entry
         = Ok [mkDataEntry mid None] →
       RenameFields.process_dataset_entry (RenameFields.mk (l1 ++ l2))
         data_entry
       = RenameFields.process_dataset_entry (RenameFields.mk l2) mid)
  ∧ (∀ e,
       RenameFields.process_dataset_entry (RenameFields.mk l1) data_entry
         = Raise e →
       RenameFields.process_dataset_entry (RenameFields.mk (l1 ++ l2))
         data_entry = Raise e).
Proof.
  rewrite !duplicate_process, !rename_process. simpl.
  rewrite duplicate_app, rename_app.
  destruct (DuplicateFields.for_items l1 data_entry) as [d|ed];
    destruct (RenameFields.for_items l1 data_entry) as [r|er]; simpl;
    repeat split; intros; simplify_eq; by rewrite ?duplicate_process, ?rename_process.
Qed.

Lemma field_pairs_compose_witness :
  DuplicateFields.process_dataset_entry duplicate_chain data_entry_a
  = DuplicateFields.process_dataset_entry
      (DuplicateFields.mk [(py "b", py "c")])
      {[py "a" := VNum 1; py "b" := VNum 1]}
  ∧ RenameFields.process_dataset_entry
      (RenameFields.mk ([(py "a", py "b")] ++ [(py "a", py "c")])) data_entry_c
    = Raise (ValueError (py "a") data_entry_c).
Proof.
  split.
  - apply (proj1 (field_pairs_compose [(py "a", py "b")] [(py "b", py "c")]
                    data_entry_a)).
    reflexivity.
  - apply (proj2 (proj2 (proj2
             (field_pairs_compose [(py "a", py "b")] [(py "a", py "c")]
                data_entry_c)))).
    reflexivity.
Defined.

(** X12. Both processors stop at the first pair whose source field is
    missing: the [ValueError] carries that field and the entry as the pairs
    before it left it, so the pairs before the failing one have already
    been applied. *)
Theorem first_missing_source_is_reported
    (pre post : list (str * str)) (src tgt : str) (data_entry current : Entry) :
  (DuplicateFields.process_dataset_entry (DuplicateFields.mk pre) data_entry
     = Ok [mkDataEntry current None] →
   current !! src = None →
   DuplicateFields.process_dataset_entry
     (DuplicateFields.mk (pre ++ (src, tgt) :: post)) data_entry
   = Raise (ValueError src current))
  ∧ (RenameFields.process_dataset_entry (RenameFields.mk pre) data_entry
       = Ok [mkDataEntry current None] →
     current !! src = None →
     RenameFields.process_dataset_entry
       (RenameFields.mk (pre ++ (src, tgt) :: post)) data_entry
     = Raise (ValueError src current)).
Proof.
  rewrite !duplicate_process, !rename_process. simpl.
  rewrite duplicate_app, rename_app. split.
  - destruct (DuplicateFields.for_items pre data_entry); simpl; [|done].
    intros [= ->] Hsrc%contains_false. by rewrite Hsrc.
  - destruct (RenameFields.for_items pre data_entry); simpl; [|done].
    intros [= ->] Hsrc%contains_false. by rewrite Hsrc.
Qed.

Lemma first_missing_source_is_reported_witness :
  DuplicateFields.process_dataset_entry
    (DuplicateFields.mk ([(py "a", py "b")] ++ (py "x", py "y") :: []))
    data_entry_a
  = Raise (ValueError (py "x") {[py "a" := VNum 1; py "b" := VNum 1]})
  ∧ RenameFields.process_dataset_entry
      (RenameFields.mk ([(py "a", py "b")] ++ (py "x", py "y") :: []))
      data_entry_a
    = Raise (ValueError (py "x") {[py "b" := VNum 1]}).
Proof.
  split.
  - by apply (proj1 (first_missing_source_is_reported [(py "a", py "b")] []
                       (py "x") (py "y") data_entry_a _)).
  - by apply (proj2 (first_missing_source_is_reported [(py "a", py "b")] []
                       (py "x") (py "y") data_entry_a _)).
Defined.


(** *** Renaming back *)

Lemma swap_sources (items : list (str * str)) :
  (prod_swap <$> items).*1 = items.*2.
Proof. induction items as [|[s t] items IH]; simpl; by f_equal. Qed.

Lemma swap_targets (items : list (str * str)) :
  (prod_swap <$> items).*2 = items.*1.
Proof. induction items as [|[s t] items IH]; simpl; by f_equal. Qed.

(** X13. Renaming back restores the entry: when the sources are present and
    pairwise distinct, the targets are pairwise distinct, absent from the
    entry and no source of the configuration, RenameFields followed by
    RenameFields with every pair swapped returns the original entry. *)
Theorem rename_round_trip (self : RenameFields.t) (data_entry : Entry) :
  let items := RenameFields.rename_fields self in
  NoDup items.*1 → NoDup items.*2 →
  (∀ k, k ∈ items.*2 → k ∉ items.*1) →
  (∀ src, src ∈ items.*1 → is_Some (data_entry !! src)) →
  (∀ tgt, tgt ∈ items.*2 → data_entry !! tgt = None) →
  ∃ out,
    RenameFields.process_dataset_entry self data_entry
      = Ok [mkDataEntry out None]
    ∧ RenameFields.process_dataset_entry
        (RenameFields.mk (prod_swap <$> items)) out
      = Ok [mkDataEntry data_entry None].
Proof.
  intros items Hsrcs Htgts Hdisj Hpresent Hfresh.
  destruct (rename_moves items data_entry Hsrcs Hpresent Htgts Hdisj)
    as (out & Hout & Hmove).
  exists out. rewrite !rename_process. fold items. rewrite Hout.
  split; [done|]. simpl.
  destruct (rename_moves (prod_swap <$> items) out) as (back & Hback & Hmove').
  { by rewrite swap_sources. }
  { rewrite swap_sources. intros t (st & -> & Hin)%list_elem_of_fmap.
    destruct st as [s t]. simpl. destruct (Hmove s t Hin) as [-> _].
    apply Hpresent. by apply (list_elem_of_fmap_2 fst _ _ Hin). }
  { by rewrite swap_targets. }
  { rewrite swap_sources, swap_targets. intros k Hk Hk'. by apply (Hdisj k). }
  rewrite Hback. simpl. do 3 f_equal. apply map_eq. intros k.
  destruct (decide (k ∈ items.*1)) as [Hk|Hk].
  - apply list_elem_of_fmap in Hk as ([s t] & -> & Hin). simpl.
    destruct (Hmove' t s) as [-> _].
    { apply list_elem_of_fmap. by exists (s, t). }
    by destruct (Hmove s t Hin) as [-> _].
  - destruct (decide (k ∈ items.*2)) as [Hk'|Hk'].
    + apply list_elem_of_fmap in Hk' as ([s t] & -> & Hin). simpl.
      destruct (Hmove' t s) as [_ ->].
      { apply list_elem_of_fmap. by exists (s, t). }
      symmetry. apply Hfresh. by apply (list_elem_of_fmap_2 snd _ _ Hin).
    + rewrite (rename_untouched _ _ _ _ Hback)
        by (by rewrite ?swap_sources, ?swap_targets).
      by rewrite (rename_untouched _ _ _ _ Hout).
Qed.

Lemma rename_round_trip_witness :
  ∃ out,
    RenameFields.process_dataset_entry rename_one data_entry_a2
      = Ok [mkDataEntry out None]
    ∧ RenameFields.process_dataset_entry
        (RenameFields.mk [(py "b", py "a")]) out
      = Ok [mkDataEntry data_entry_a2 None].
Proof.
  apply (rename_round_trip rename_one data_entry_a2).
  - apply NoDup_singleton.
  - apply NoDup_singleton.
  - intros k ->%list_elem_of_singleton [=]%list_elem_of_singleton.
  - intros src ->%list_elem_of_singleton. by eexists.
  - intros tgt ->%list_elem_of_singleton. reflexivity.
Defined.

(** *** Renaming is duplicating, then deleting the sources *)

Lemma lookup_foldr_delete (m : Entry) (l : list str) (k : str) :
  foldr delete m l !! k = if decide (k ∈ l) then None else m !! k.
Proof.
  induction l as [|x l IH]; cbn [foldr].
  - destruct (decide (k ∈ [])) as [Hk|]; [by apply elem_of_nil in Hk|done].
  - destruct (decide (k ∈ x :: l)) as [Hk|Hk].
    + destruct (decide (k = x)) as [->|Hne]; [apply lookup_delete_eq|].
      rewrite lookup_delete_ne, IH by done.
      apply elem_of_cons in Hk as [?|Hk]; [done|]. by rewrite decide_True.
    + apply not_elem_of_cons in Hk as [Hne Hk].
      rewrite lookup_delete_ne, IH by done. by rewrite decide_False.
Qed.

Lemma rename_follows_duplicate (items : list (str * str))
    (cur_d cur_r : Entry) (deleted : list str) :
  NoDup (deleted ++ items.*1) →
  (∀ k, k ∈ items.*2 → k ∉ deleted ++ items.*1) →
  (∀ k, cur_r !! k = if decide (k ∈ deleted) then None else cur_d !! k) →
  match DuplicateFields.for_items items cur_d with
  | Ok out_d =>
      ∃ out_r, RenameFields.for_items items cur_r = Ok out_r
        ∧ ∀ k, out_r !! k
               = if decide (k ∈ deleted ++ items.*1) then None
                 else out_d !! k
  | Raise _ => ∃ e, RenameFields.for_items items cur_r = Raise e
  end.
Proof.
  revert cur_d cur_r deleted.
  induction items as [|[s t] items IH]; intros cur_d cur_r deleted Hnd Hdisj Hcur;
    simpl.
  - exists cur_r. split; [done|]. intros k. rewrite app_nil_r. apply Hcur.
  - assert (Hs : s ∉ deleted).
    { apply NoDup_app in Hnd as (_ & Hnd & _). intros Hin.
      apply (Hnd s Hin). by left. }
    assert (Hcs : cur_r !! s = cur_d !! s).
    { rewrite Hcur. by rewrite decide_False. }
    destruct (cur_d !! s) as [v|] eqn:Hv.
    2:{ rewrite (proj2 (contains_false cur_d s)) by done.
        rewrite (proj2 (contains_false cur_r s)) by done. by eexists. }
    rewrite (proj2 (contains_true cur_d s)) by eauto.
    rewrite (proj2 (contains_true cur_r s)) by (rewrite Hcs; eauto).
    rewrite (proj2 (getitem_Ok cur_d s v)) by done.
    rewrite (proj2 (getitem_Ok cur_r s v)) by done. simpl.
    specialize (IH (<[t := v]> cur_d) (delete s (<[t := v]> cur_r))
                   (deleted ++ [s])).
    rewrite <- (assoc_L (++)) in IH. simpl in IH.
    apply IH; [done| |].
    + intros k Hk. apply Hdisj. by right.
    + intros k.
      assert (Ht : (t ∉ deleted) ∧ t ≠ s).
      { specialize (Hdisj t ltac:(by left)). simpl in Hdisj.
        rewrite elem_of_app, elem_of_cons in Hdisj. split; [tauto|].
        intros ->. tauto. }
      destruct (decide (k = s)) as [->|Hks].
      { rewrite lookup_delete_eq, decide_True; [done|].
        apply elem_of_app. right. by apply list_elem_of_singleton. }
      rewrite lookup_delete_ne by done.
      destruct (decide (k = t)) as [->|Hkt].
      { rewrite !lookup_insert_eq, decide_False; [done|].
        rewrite elem_of_app, list_elem_of_singleton. tauto. }
      rewrite !lookup_insert_ne by done. rewrite Hcur.
      destruct (decide (k ∈ deleted)).
      * rewrite decide_True; [done|]. apply elem_of_app. by left.
      * rewrite decide_False; [done|].
        rewrite elem_of_app, list_elem_of_singleton. tauto.
Qed.

(** X14. When no target field is a source field, RenameFields returns what
    DuplicateFields returns with every source field deleted, and fails
    whenever DuplicateFields fails. *)
Theorem rename_is_duplicate_then_delete (items : list (str * str))
    (data_entry : Entry) :
  NoDup items.*1 → (∀ k, k ∈ items.*2 → k ∉ items.*1) →
  (∀ out,
     DuplicateFields.process_dataset_entry (DuplicateFields.mk items) data_entry
       = Ok [mkDataEntry out None] →
     RenameFields.process_dataset_entry (RenameFields.mk items) data_entry
     = Ok [mkDataEntry (foldr delete out items.*1) None])
  ∧ (∀ e,
       DuplicateFields.process_dataset_entry (DuplicateFields.mk items)
         data_entry = Raise e →
       ∃ e', RenameFields.process_dataset_entry (RenameFields.mk items)
               data_entry = Raise e').
Proof.
  intros Hnd Hdisj.
  pose proof (rename_follows_duplicate items data_entry data_entry []
                Hnd Hdisj) as H.
  rewrite duplicate_process, rename_process. simpl.
  destruct (DuplicateFields.for_items items data_entry) as [out_d|e].
  - destruct H as (out_r & -> & Hpoint).
    { intros k. by rewrite decide_False by apply not_elem_of_nil. }
    split; [|done]. intros out [= <-]. simpl. do 3 f_equal.
    apply map_eq. intros k. by rewrite Hpoint, lookup_foldr_delete.
  - destruct H as (e' & ->).
    { intros k. by rewrite decide_False by apply not_elem_of_nil. }
    split; [done|]. intros _ _. by eexists.
Qed.

Lemma rename_is_duplicate_then_delete_witness :
  RenameFields.process_dataset_entry rename_one data_entry_ab
  = Ok [mkDataEntry
          (foldr delete {[py "a" := VNum 1; py "b" := VNum 1]} [py "a"]) None].
Proof.
  assert (Hnd : NoDup [(py "a", py "b")].*1) by apply NoDup_singleton.
  assert (Hdisj : ∀ k, k ∈ [(py "a", py "b")].*2 → k ∉ [(py "a", py "b")].*1).
  { intros k ->%list_elem_of_singleton [=]%list_elem_of_singleton. }
  apply (proj1 (rename_is_duplicate_then_delete [(py "a", py "b")]
                  data_entry_ab Hnd Hdisj)).
  reflexivity.
Defined.

(** *** Duplicating again *)

(** Two runs that start from entries agreeing on the source fields write
    the same values to the target fields. *)
Lemma duplicate_same_writes (items : list (str * str)) (cur cur' out : Entry) :
  (∀ k, k ∈ items.*2 → k ∉ items.*1) →
  (∀ s, s ∈ items.*1 → cur' !! s = cur !! s) →
  DuplicateFields.for_items items cur = Ok out →
  ∃ out', DuplicateFields.for_items items cur' = Ok out'
    ∧ (∀ k, k ∈ items.*2 → out' !! k = out !! k)
    ∧ (∀ k, k ∉ items.*2 → out' !! k = cur' !! k).
Proof.
  revert cur cur'.
  induction items as [|[s t] items IH]; intros cur cur' Hdisj Hagree; simpl.
  - intros [= <-]. exists cur'. split; [done|]. split; [|done].
    by intros k ?%elem_of_nil.
  - destruct (contains cur s) eqn:Hc; simpl; [|done].
    apply contains_true in Hc as [v Hv].
    rewrite (proj2 (getitem_Ok cur s v)) by done. simpl. intros Hout.
    assert (Hv' : cur' !! s = Some v) by (rewrite Hagree; [done|by left]).
    rewrite (proj2 (contains_true cur' s)) by eauto.
    rewrite (proj2 (getitem_Ok cur' s v)) by done. simpl.
    assert (Hts : ∀ s', s' ∈ items.*1 → s' ≠ t).
    { intros s' Hs' ->. apply (Hdisj t); [by left | by right]. }
    destruct (IH (<[t := v]> cur) (<[t := v]> cur')) as (out' & Hout' & Ht & Hrest).
    + intros k Hk Hk'. apply (Hdisj k); by right.
    + intros s' Hs'. rewrite !lookup_insert_ne by (symmetry; by apply Hts).
      apply Hagree. by right.
    + done.
    + exists out'. split; [done|]. split.
      * intros k [->|Hk]%elem_of_cons; [|by apply Ht].
        destruct (decide (t ∈ items.*2)) as [Hin|Hin]; [by apply Ht|].
        rewrite (Hrest t Hin), (duplicate_untouched _ _ _ _ Hout Hin).
        by rewrite !lookup_insert_eq.
      * intros k [Hkt Hk]%not_elem_of_cons.
        rewrite (Hrest k Hk). by apply lookup_insert_ne.
Qed.

Lemma duplicate_dom (items : list (str * str)) (cur out : Entry) :
  DuplicateFields.for_items items cur = Ok out →
  dom out = dom cur ∪ list_to_set items.*2.
Proof.
  revert cur. induction items as [|[s t] items IH]; intros cur; simpl.
  - intros [= <-]. by rewrite (right_id_L ∅ (∪)).
  - destruct (contains cur s); simpl; [|done].
    intros (v & _ & Hout)%bind_Ok. rewrite (IH _ Hout), dom_insert_L.
    by rewrite (comm_L (∪) {[t]}), <- (assoc_L (∪)).
Qed.

(** X15. When no target field is a source field, running DuplicateFields
    again on its own output returns that output unchanged. *)
Theorem duplicate_again_changes_nothing (self : DuplicateFields.t)
    (data_entry out : Entry) :
  let items := DuplicateFields.duplicate_fields self in
  (∀ k, k ∈ items.*2 → k ∉ items.*1) →
  DuplicateFields.process_dataset_entry self data_entry
    = Ok [mkDataEntry out None] →
  DuplicateFields.process_dataset_entry self out = Ok [mkDataEntry out None].
Proof.
  intros items Hdisj. rewrite !duplicate_process. fold items.
  destruct (DuplicateFields.for_items items data_entry) as [out0|] eqn:Hout;
    simpl; [|done].
  intros [= ->].
  destruct (duplicate_same_writes items data_entry out out Hdisj)
    as (out' & -> & Ht & Hrest); [|done|].
  - intros s Hs. apply (duplicate_untouched _ _ _ _ Hout).
    intros Hin. by apply (Hdisj s).
  - simpl. do 3 f_equal. apply map_eq. intros k.
    destruct (decide (k ∈ items.*2)); [by apply Ht | by apply Hrest].
Qed.

Lemma duplicate_again_changes_nothing_witness :
  DuplicateFields.process_dataset_entry duplicate_one
    {[py "a" := VNum 2; py "b" := VNum 2]}
  = Ok [mkDataEntry {[py "a" := VNum 2; py "b" := VNum 2]} None].
Proof.
  apply (duplicate_again_changes_nothing duplicate_one data_entry_a2).
  - intros k ->%list_elem_of_singleton [=]%list_elem_of_singleton.
  - reflexivity.
Defined.

(** X16. DuplicateFields removes no field: the fields of its output are
    those of the input together with the configured targets. *)
Theorem duplicate_adds_the_targets (self : DuplicateFields.t)
    (data_entry out : Entry) :
  DuplicateFields.process_dataset_entry self data_entry
    = Ok [mkDataEntry out None] →
  dom out
  = dom data_entry ∪ list_to_set (DuplicateFields.duplicate_fields self).*2
  ∧ ∀ k v, data_entry !! k = Some v → is_Some (out !! k).
Proof.
  rewrite duplicate_process.
  destruct (DuplicateFields.for_items _ _) as [out0|] eqn:Hout; simpl; [|done].
  intros [= ->]. pose proof (duplicate_dom _ _ _ Hout) as Hdom.
  split; [done|]. intros k v Hk. apply elem_of_dom. rewrite Hdom.
  apply elem_of_union. left. apply elem_of_dom. by eexists.
Qed.

Lemma duplicate_adds_the_targets_witness :
  dom ({[py "a" := VNum 2; py "b" := VNum 2]} : Entry)
  = dom data_entry_a2
    ∪ list_to_set (DuplicateFields.duplicate_fields duplicate_one).*2
  ∧ ∀ k v, data_entry_a2 !! k = Some v →
      is_Some (({[py "a" := VNum 2; py "b" := VNum 2]} : Entry) !! k).
Proof.
  apply (duplicate_adds_the_targets duplicate_one data_entry_a2). reflexivity.
Defined.

End FieldPairsMore.

(** ** RemoveExtraSymbols: what [clear_text] computes *)

Module ClearText.
Import RemoveExtraSymbols ReplaceFacts.

Lemma replace_char_delete (text : str) (x : char) :
  replace text [x] [] = filter (λ c, c ≠ x) text.
Proof.
  unfold replace. induction text as [|c text IH]; [done|].
  cbn [replace_from starts_with length Nat.sub]. rewrite IH, andb_true_r.
  rewrite filter_cons. case_bool_decide as Hx.
  - subst c. by rewrite decide_False by (by intros []).
  - by rewrite decide_True by (by intros ->).
Qed.

Lemma replace_char_char (text : str) (c d : char) :
  replace text [c] [d] = (λ y, if decide (y = c) then d else y) <$> text.
Proof.
  unfold replace. induction text as [|y text IH]; [done|].
  cbn [replace_from starts_with length Nat.sub]. rewrite IH, andb_true_r.
  rewrite fmap_cons. case_bool_decide as Hx.
  - subst y. by rewrite decide_True.
  - by rewrite decide_False by (by intros ->).
Qed.

Lemma armenian_replacements (text : str) :
  replace (replace text (py ".") armenian_full_stop) (py ":") armenian_colon
  = armenian_punctuation <$> text.
Proof.
  change (py ".") with [46%N]. change (py ":") with [58%N].
  unfold armenian_full_stop, armenian_colon.
  rewrite !replace_char_char, <- list_fmap_compose.
  apply list_fmap_ext. intros _ c _. unfold armenian_punctuation. simpl.
  destruct (decide (c = 46%N)) as [->|]; [done|].
  by destruct (decide (c = 58%N)).
Qed.

Lemma armenian_punctuation_gone (text : str) :
  (46%N ∉ armenian_punctuation <$> text)
  ∧ (58%N ∉ armenian_punctuation <$> text).
Proof.
  split; intros (c & Hc & _)%list_elem_of_fmap; unfold armenian_punctuation in Hc;
    repeat case_decide; by subst.
Qed.

Lemma armenian_punctuation_id (text : str) :
  46%N ∉ text → 58%N ∉ text → armenian_punctuation <$> text = text.
Proof.
  intros H1 H2. rewrite <- (list_fmap_id text) at 2.
  apply list_fmap_ext. intros _ c Hc%list_elem_of_lookup_2.
  unfold armenian_punctuation. repeat case_decide; by subst.
Qed.

Section WithUpper.
Variable upper : char → str.

(** The text after the substitutions and before the deletions. *)
Lemma clear_text_unfold (text ignore lang : str) :
  clear_text upper text ignore lang
  = foldl (λ text x,
             let text := replace text [x] [] in
             let text := replace text (upper x) [] in
             text)
          (if bool_decide (lang = py "armenian")
           then armenian_punctuation <$> text else text)
          ignore.
Proof. unfold clear_text. by rewrite armenian_replacements. Qed.

Lemma delete_loop_sublist (ignore text : str) :
  foldl (λ text x,
           let text := replace text [x] [] in
           let text := replace text (upper x) [] in
           text) text ignore `sublist_of` text.
Proof.
  revert text. induction ignore as [|x ignore IH]; intros text; [done|].
  cbn [foldl]. etrans; [apply IH|].
  etrans; apply replace_delete_sublist.
Qed.

Lemma delete_loop_filter (ignore text : str) :
  (∀ x, x ∈ ignore → length (upper x) = 1) →
  foldl (λ text x,
           let text := replace text [x] [] in
           let text := replace text (upper x) [] in
           text) text ignore
  = filter (λ c, c ∉ ignore ++ concat (upper <$> ignore)) text.
Proof.
  revert text. induction ignore as [|x ignore IH]; intros text Hup.
  - simpl. induction text as [|c text IHt]; [done|].
    rewrite filter_cons_True by apply not_elem_of_nil. by f_equal.
  - destruct (upper x) as [|u [|??]] eqn:Hu;
      try (specialize (Hup x ltac:(by left)); rewrite Hu in Hup; done).
    cbn [foldl]. rewrite Hu, IH by (intros y Hy; apply Hup; by right).
    rewrite !replace_char_delete, !list_filter_filter.
    apply list_filter_iff. intros c. cbn [fmap list_fmap concat].
    rewrite Hu. cbn [app].
    rewrite !elem_of_app, !elem_of_cons, elem_of_app, elem_of_cons. tauto.
Qed.

(** X17. When the upper-case form of every symbol to ignore is a single
    character, [clear_text] is a filter: it keeps, in order, exactly the
    characters that are neither a symbol to ignore nor the upper-case form
    of one, after "." and ":" have been replaced by their Armenian
    counterparts if the language tag is "armenian". *)
Theorem clear_text_is_filter (text ignore lang : str) :
  (∀ x, x ∈ ignore → length (upper x) = 1) →
  clear_text upper text ignore lang
  = filter (λ c, c ∉ ignore ++ concat (upper <$> ignore))
      (if bool_decide (lang = py "armenian")
       then armenian_punctuation <$> text else text).
Proof. intros Hup. by rewrite clear_text_unfold, delete_loop_filter. Qed.

(** X18. Under the same condition [clear_text] is idempotent: cleaning an
    already cleaned text with the same symbols and language tag returns it
    unchanged. *)
Theorem clear_text_idempotent (text ignore lang : str) :
  (∀ x, x ∈ ignore → length (upper x) = 1) →
  clear_text upper (clear_text upper text ignore lang) ignore lang
  = clear_text upper text ignore lang.
Proof.
  intros Hup. rewrite !clear_text_unfold, !delete_loop_filter by done.
  case_bool_decide.
  - rewrite (armenian_punctuation_id (filter _ _)).
    + by apply list_filter_filter_l.
    + intros [_ Hin]%list_elem_of_filter.
      by apply (proj1 (armenian_punctuation_gone text)).
    + intros [_ Hin]%list_elem_of_filter.
      by apply (proj2 (armenian_punctuation_gone text)).
  - by apply list_filter_filter_l.
Qed.

Lemma clear_text_length (text ignore lang : str) :
  length (clear_text upper text ignore lang) ≤ length text.
Proof.
  rewrite clear_text_unfold.
  etrans; [apply sublist_length, delete_loop_sublist|].
  case_bool_decide; [by rewrite length_fmap|done].
Qed.

(** X19. The cleaned text is never longer than the text; under the
    "armenian" tag it contains neither "." nor ":"; under any other tag
    [clear_text] only deletes characters (the result is a subsequence of
    the text). *)
Theorem clear_text_never_grows (text ignore lang : str) :
  length (clear_text upper text ignore lang) ≤ length text
  ∧ (lang = py "armenian" →
     (46%N ∉ clear_text upper text ignore lang)
     ∧ (58%N ∉ clear_text upper text ignore lang))
  ∧ (lang ≠ py "armenian" →
     clear_text upper text ignore lang `sublist_of` text).
Proof.
  split; [apply clear_text_length|]. rewrite clear_text_unfold. split.
  - intros Hl. rewrite bool_decide_eq_true_2 by done.
    destruct (armenian_punctuation_gone text) as [H1 H2].
    split; intros Hin; [apply H1|apply H2];
      by eapply elem_of_sublist; [|apply delete_loop_sublist].
  - intros Hl. rewrite bool_decide_eq_false_2 by done.
    apply delete_loop_sublist.
Qed.

(** X20. RemoveExtraSymbols returns only when the text field holds a
    string; it then returns the one entry it was given, with a metric that
    lies between 0 and the length of the text. *)
Theorem removed_symbols_metric (self : t) (data_entry : Entry)
    (output : list DataEntry) :
  process_dataset_entry upper self data_entry = Ok output →
  ∃ original_text n,
    data_entry !! text_key self = Some (VStr original_text)
    ∧ output = [mkDataEntry data_entry (Some n)]
    ∧ (0 ≤ n ≤ Z.of_nat (length original_text))%Z.
Proof.
  unfold process_dataset_entry.
  intros (v & Hv%getitem_Ok & Hout)%bind_Ok.
  destruct v as [original_text| |]; try (by destruct (_ || _)).
  injection Hout as <-. eexists _, _. split; [done|]. split; [done|].
  pose proof (clear_text_length original_text (ignore_symbols self)
                (target_language self)).
  unfold filter_text. lia.
Qed.

End WithUpper.

Lemma clear_text_is_filter_witness :
  clear_text ascii_upper (py "a,B.b:") (py ",b") (py "armenian")
  = filter (λ c, c ∉ py ",b" ++ concat (ascii_upper <$> py ",b"))
      (armenian_punctuation <$> py "a,B.b:").
Proof.
  apply (clear_text_is_filter ascii_upper (py "a,B.b:") (py ",b")
           (py "armenian")).
  intros x [->|[->|[]%elem_of_nil]%elem_of_cons]%elem_of_cons; reflexivity.
Defined.

Lemma clear_text_idempotent_witness :
  clear_text ascii_upper
    (clear_text ascii_upper (py "a,B.b:") (py ",b") (py "armenian"))
    (py ",b") (py "armenian")
  = clear_text ascii_upper (py "a,B.b:") (py ",b") (py "armenian").
Proof.
  apply (clear_text_idempotent ascii_upper).
  intros x [->|[->|[]%elem_of_nil]%elem_of_cons]%elem_of_cons; reflexivity.
Defined.

Lemma removed_symbols_metric_witness :
  ∃ original_text n,
    data_entry_comma !! py "text" = Some (VStr original_text)
    ∧ [mkDataEntry data_entry_comma (Some 1%Z)]
      = [mkDataEntry data_entry_comma (Some n)]
    ∧ (0 ≤ n ≤ Z.of_nat (length original_text))%Z.
Proof.
  apply (removed_symbols_metric ascii_upper strip_comma data_entry_comma).
  reflexivity.
Defined.

End ClearText.

(** ** SortManifest *)

Module SortFacts.
Import SortManifest.

(** *** The order on keys *)

Lemma str_lt_asym (a b : str) : str_lt a b = true → str_lt b a = false.
Proof.
  revert b. induction a as [|x a IH]; intros [|y b]; simpl; try done.
  intros [Hlt | [Heq Hab]%andb_prop]%orb_prop.
  - apply N.ltb_lt in Hlt. apply orb_false_intro.
    + apply N.ltb_ge. lia.
    + apply andb_false_intro1, N.eqb_neq. lia.
  - apply N.eqb_eq in Heq as ->. rewrite N.ltb_irrefl, N.eqb_refl. simpl.
    by apply IH.
Qed.

Lemma str_le_trans (a b c : str) :
  str_lt b a = false → str_lt c b = false → str_lt c a = false.
Proof.
  revert b c. induction a as [|x a IH]; intros [|y b] [|z c]; simpl; try done.
  intros [Hyx Hba]%orb_false_elim [Hzy Hcb]%orb_false_elim.
  apply N.ltb_ge in Hyx, Hzy. apply orb_false_intro; [apply N.ltb_ge; lia|].
  destruct (N.eqb_spec z x) as [->|]; [|done]. simpl.
  assert (y = x) as -> by lia. rewrite N.eqb_refl in Hba, Hcb. simpl in *.
  by apply (IH b c).
Qed.

Lemma lt_asym (a b : value) : lt a b = Ok true → lt b a = Ok false.
Proof.
  destruct a as [s|x|x], b as [s'|y|y]; simpl; try done;
    try (intros [= H]; f_equal; by apply str_lt_asym);
    intros [= H%negb_true_iff]; f_equal; apply negb_false_iff, Qle_bool_iff;
    apply Qlt_le_weak, Qnot_le_lt; intros Hle%Qle_bool_iff; congruence.
Qed.

Lemma lt_le_trans (a b c : value) :
  lt b a = Ok false → lt c b = Ok false → lt c a = Ok false.
Proof.
  destruct a as [s|x|x], b as [s'|y|y], c as [s''|z|z]; simpl; try done;
    try (intros [= H1] [= H2]; f_equal; by eapply str_le_trans);
    intros [= H1%negb_false_iff%Qle_bool_iff]
           [= H2%negb_false_iff%Qle_bool_iff];
    f_equal; apply negb_false_iff, Qle_bool_iff; by eapply Qle_trans.
Qed.

Lemma lt_raises (a b : value) (e : exception) :
  lt a b = Raise e → e = TypeError.
Proof.
  destruct a as [s|x|x], b as [s'|y|y]; simpl; try done; by intros [= <-].
Qed.

Lemma lt_defined (a b : value) :
  is_str a = is_str b ↔ ∃ less, lt a b = Ok less.
Proof.
  destruct a as [s|x|x], b as [s'|y|y]; simpl; split; try done;
    try (by eexists); by intros [? [=]].
Qed.


(** *** Insertion *)

Lemma insert_Ok (x y : value * Entry) (l l' : list (value * Entry)) :
  insert x (y :: l) = Ok l' →
  (lt y.1 x.1 = Ok true ∧ ∃ rest, insert x l = Ok rest ∧ l' = y :: rest)
  ∨ (lt y.1 x.1 = Ok false ∧ l' = x :: y :: l).
Proof.
  simpl. intros ([] & Hlt & H)%bind_Ok.
  - left. split; [done|]. apply bind_Ok in H as (rest & Hrest & [= <-]).
    by exists rest.
  - right. by injection H as <-.
Qed.

Lemma insert_perm (x : value * Entry) (l l' : list (value * Entry)) :
  insert x l = Ok l' → l' ≡ₚ x :: l.
Proof.
  revert l'. induction l as [|y l IH]; intros l'.
  - by intros [= <-].
  - intros [(_ & rest & Hrest & ->) | (_ & ->)]%insert_Ok; [|done].
    rewrite (IH _ Hrest). apply Permutation_swap.
Qed.

Lemma insert_sorted (x : value * Entry) (l l' : list (value * Entry)) :
  StronglySorted key_le l → insert x l = Ok l' → StronglySorted key_le l'.
Proof.
  revert l'. induction l as [|y l IH]; intros l' Hl.
  - intros [= <-]. repeat constructor.
  - apply StronglySorted_inv in Hl as [Hl Hy].
    intros [(Hlt & rest & Hrest & ->) | (Hlt & ->)]%insert_Ok.
    + constructor; [by apply IH|].
      rewrite (insert_perm _ _ _ Hrest). constructor; [|done].
      by apply lt_asym.
    + constructor; [by constructor|]. constructor; [done|].
      eapply Forall_impl; [exact Hy|]. intros z Hz.
      by apply (lt_le_trans _ y.1).
Qed.

Lemma insert_filter (k : value) (x : value * Entry)
    (l l' : list (value * Entry)) :
  insert x l = Ok l' → filter (same_key k) l' = filter (same_key k) (x :: l).
Proof.
  revert l'. induction l as [|y l IH]; intros l'.
  - by intros [= <-].
  - intros [(Hlt & rest & Hrest & ->) | (_ & ->)]%insert_Ok; [|done].
    rewrite filter_cons, (IH _ Hrest), !filter_cons.
    destruct (decide (same_key k y)) as [[Hy1 Hy2]|]; [|done].
    destruct (decide (same_key k x)) as [[Hx1 Hx2]|]; [|done].
    pose proof (lt_le_trans _ _ _ Hx1 Hy2). congruence.
Qed.

Lemma insert_front (x : value * Entry) (l : list (value * Entry)) :
  Forall (key_le x) l → insert x l = Ok (x :: l).
Proof. destruct l as [|y l]; [done|]. intros [Hy _]%Forall_cons. simpl. by rewrite Hy. Qed.

Lemma insert_raises (x : value * Entry) (l : list (value * Entry)) e :
  insert x l = Raise e → e = TypeError.
Proof.
  induction l as [|y l IH]; simpl; [done|].
  destruct (lt y.1 x.1) as [[]|e'] eqn:Hlt; simpl.
  - destruct (insert x l); simpl; [done|]. intros [= <-]. by apply IH.
  - done.
  - intros [= <-]. by apply lt_raises in Hlt.
Qed.

Lemma insert_defined (x : value * Entry) (l : list (value * Entry)) :
  Forall (λ y, is_str y.1 = is_str x.1) l → ∃ l', insert x l = Ok l'.
Proof.
  induction 1 as [|y l Hy _ [l' IH]]; [by eexists|]. simpl.
  apply lt_defined in Hy as [[] ->]; simpl; [|by eexists].
  rewrite IH. by eexists.
Qed.

(** *** The stable sort *)

Lemma stable_sort_cons (x : value * Entry) (l : list (value * Entry)) :
  stable_sort (x :: l) = stable_sort l ≫= insert x.
Proof. done. Qed.

Lemma stable_sort_spec (l out : list (value * Entry)) :
  stable_sort l = Ok out →
  out ≡ₚ l ∧ StronglySorted key_le out
  ∧ ∀ k, filter (same_key k) out = filter (same_key k) l.
Proof.
  revert out. induction l as [|x l IH]; intros out.
  - intros [= <-]. repeat split; constructor.
  - rewrite stable_sort_cons. intros (rest & Hrest & Hout)%bind_Ok.
    destruct (IH _ Hrest) as (Hperm & Hsorted & Hfilter).
    split; [|split].
    + by rewrite (insert_perm _ _ _ Hout), Hperm.
    + by eapply insert_sorted.
    + intros k. rewrite (insert_filter _ _ _ _ Hout), !filter_cons.
      by rewrite Hfilter.
Qed.

Lemma stable_sort_sorted (l : list (value * Entry)) :
  StronglySorted key_le l → stable_sort l = Ok l.
Proof.
  induction 1 as [|x l _ IH Hx]; [done|].
  rewrite stable_sort_cons, IH. by apply insert_front.
Qed.

Lemma stable_sort_raises (l : list (value * Entry)) e :
  stable_sort l = Raise e → e = TypeError.
Proof.
  induction l as [|x l IH]; [done|]. rewrite stable_sort_cons.
  destruct (stable_sort l) as [rest|e']; simpl.
  - apply insert_raises.
  - intros [= <-]. by apply IH.
Qed.

Lemma stable_sort_defined (l : list (value * Entry)) (kind : bool) :
  Forall (λ y, is_str y.1 = kind) l → ∃ out, stable_sort l = Ok out.
Proof.
  induction 1 as [|x l Hx Hl [rest IH]]; [by eexists|].
  rewrite stable_sort_cons, IH. simpl. apply insert_defined.
  destruct (stable_sort_spec _ _ IH) as (Hperm & _).
  rewrite Hperm. eapply Forall_impl; [exact Hl|]. simpl. congruence.
Qed.


(** *** Sortedness by position, and reversal *)

Lemma sorted_lookup {A} (R : relation A) (l : list A) :
  StronglySorted R l →
  ∀ i j x y, i < j → l !! i = Some x → l !! j = Some y → R x y.
Proof.
  induction 1 as [|a l _ IH Ha]; intros i j x y Hij Hi Hj.
  - by rewrite lookup_nil in Hi.
  - destruct j as [|j]; [lia|]. destruct i as [|i]; simpl in *.
    + injection Hi as <-. rewrite Forall_forall in Ha.
      apply Ha. by eapply list_elem_of_lookup_2.
    + apply (IH i j); [lia|done..].
Qed.

Lemma sorted_reverse {A} (R : relation A) (l : list A) :
  StronglySorted R l → StronglySorted (flip R) (reverse l).
Proof.
  induction 1 as [|a l _ IH Ha]; [constructor|].
  rewrite reverse_cons. apply StronglySorted_app_2; [|done|repeat constructor].
  intros x y Hx ->%list_elem_of_singleton. rewrite elem_of_reverse in Hx.
  rewrite Forall_forall in Ha. unfold flip. by apply Ha.
Qed.

Lemma sorted_spec (keyed out : list (value * Entry)) (rev : bool) :
  sorted keyed rev = Ok out →
  out ≡ₚ keyed
  ∧ StronglySorted (if rev then flip key_le else key_le) out
  ∧ ∀ k, filter (same_key k) out = filter (same_key k) keyed.
Proof.
  unfold sorted. destruct rev.
  - intros (s & (Hperm & Hsorted & Hfilter)%stable_sort_spec & ->)%fmap_Ok.
    split; [|split].
    + by rewrite reverse_Permutation, Hperm, reverse_Permutation.
    + by apply sorted_reverse.
    + intros k. by rewrite filter_reverse, Hfilter, filter_reverse,
        reverse_involutive.
  - apply stable_sort_spec.
Qed.

Lemma sorted_again (keyed out : list (value * Entry)) (rev : bool) :
  sorted keyed rev = Ok out → sorted out rev = Ok out.
Proof.
  unfold sorted. destruct rev.
  - intros (s & (_ & Hsorted & _)%stable_sort_spec & ->)%fmap_Ok.
    by rewrite reverse_involutive, stable_sort_sorted.
  - intros (_ & Hsorted & _)%stable_sort_spec. by apply stable_sort_sorted.
Qed.

Lemma sorted_raises (keyed : list (value * Entry)) (rev : bool) e :
  sorted keyed rev = Raise e → e = TypeError.
Proof.
  unfold sorted. destruct rev; [|apply stable_sort_raises].
  destruct (stable_sort (reverse keyed)) eqn:Hs; simpl; [done|].
  intros [= <-]. by apply stable_sort_raises in Hs.
Qed.

Lemma sorted_defined (keyed : list (value * Entry)) (rev kind : bool) :
  Forall (λ y, is_str y.1 = kind) keyed → ∃ out, sorted keyed rev = Ok out.
Proof.
  intros Hkind. unfold sorted. destruct rev; [|by eapply stable_sort_defined].
  destruct (stable_sort_defined (reverse keyed) kind) as [s ->].
  - by rewrite reverse_Permutation.
  - by eexists.
Qed.

(** *** The keys of the entries *)

Lemma with_keys_Ok (self : t) (entries : list Entry) keyed :
  with_keys self entries = Ok keyed →
  keyed.*2 = entries ∧ Forall (keyed_by self) keyed.
Proof.
  revert keyed. induction entries as [|x entries IH]; intros keyed; simpl.
  - by intros [= <-].
  - intros (k & Hk%getitem_Ok & (rest & Hrest & [= <-])%bind_Ok)%bind_Ok.
    destruct (IH _ Hrest) as [<- Hall]. split; [done|]. by constructor.
Qed.

Lemma with_keys_keyed (self : t) (keyed : list (value * Entry)) :
  Forall (keyed_by self) keyed → with_keys self keyed.*2 = Ok keyed.
Proof.
  induction 1 as [|[k x] keyed Hx _ IH]; [done|].
  unfold keyed_by in Hx. rewrite fmap_cons. cbn [with_keys snd] in *.
  rewrite (proj2 (getitem_Ok _ _ _) Hx). cbn [mbind result_bind].
  by rewrite IH.
Qed.

Lemma with_keys_missing (self : t) (entries : list Entry) :
  Exists (λ x, x !! attribute_sort_by self = None) entries →
  with_keys self entries = Raise (KeyError (attribute_sort_by self)).
Proof.
  induction entries as [|x entries IH]; [by intros ?%Exists_nil|].
  intros Hex. simpl. unfold getitem at 1.
  destruct (x !! attribute_sort_by self) eqn:Hx; [|done]. simpl.
  apply Exists_cons in Hex as [Hex|Hex]; [congruence|].
  by rewrite IH.
Qed.

Lemma with_keys_defined (self : t) (entries : list Entry) (kind : bool) :
  Forall (λ x, ∃ k, x !! attribute_sort_by self = Some k ∧ is_str k = kind)
         entries →
  ∃ keyed, with_keys self entries = Ok keyed
    ∧ Forall (λ y, is_str y.1 = kind) keyed.
Proof.
  induction 1 as [|x entries (k & Hk & Hkind) _ (keyed & IH & Hall)].
  - by exists [].
  - exists ((k, x) :: keyed). simpl.
    rewrite (proj2 (getitem_Ok _ _ _) Hk). simpl. rewrite IH.
    split; [done|]. by constructor.
Qed.

Lemma process_Ok (self : t) (entries out : list Entry) :
  process self entries = Ok out →
  ∃ keyed sorted_keyed,
    with_keys self entries = Ok keyed
    ∧ sorted keyed (descending self) = Ok sorted_keyed
    ∧ out = sorted_keyed.*2
    ∧ Forall (keyed_by self) sorted_keyed.
Proof.
  unfold process.
  intros (keyed & Hkeyed & (ks & Hks & [= <-])%bind_Ok)%bind_Ok.
  exists keyed, ks. repeat split; try done.
  destruct (sorted_spec _ _ _ Hks) as (Hperm & _).
  rewrite Hperm. by apply with_keys_Ok in Hkeyed as [_ ?].
Qed.



(** X21. When SortManifest succeeds, the manifest it writes is a
    permutation of the one it read, every entry has the sort attribute, and
    the entries are in order: with [descending] no entry has a smaller key
    than a later one, without it no entry has a greater key than a later
    one. *)
Theorem sort_manifest_sorted (self : t) (entries out : list Entry) :
  process self entries = Ok out →
  out ≡ₚ entries
  ∧ ∀ i j x y, i < j → out !! i = Some x → out !! j = Some y →
      ∃ kx ky,
        x !! attribute_sort_by self = Some kx
        ∧ y !! attribute_sort_by self = Some ky
        ∧ if descending self then lt kx ky = Ok false
          else lt ky kx = Ok false.
Proof.
  intros (keyed & ks & Hkeyed & Hks & -> & Hall)%process_Ok.
  destruct (sorted_spec _ _ _ Hks) as (Hperm & Hsorted & _).
  apply with_keys_Ok in Hkeyed as [<- _]. split; [by rewrite Hperm|].
  intros i j x y Hij
    ([kx x'] & -> & Hi)%list_lookup_fmap_Some
    ([ky y'] & -> & Hj)%list_lookup_fmap_Some.
  rewrite Forall_forall in Hall.
  exists kx, ky. split; [|split].
  - apply (Hall (kx, x')). by eapply list_elem_of_lookup_2.
  - apply (Hall (ky, y')). by eapply list_elem_of_lookup_2.
  - pose proof (sorted_lookup _ _ Hsorted i j _ _ Hij Hi Hj) as Hle.
    by destruct (descending self).
Qed.


(** X23. Sorting a manifest that SortManifest wrote, with the same
    configuration, returns it unchanged. *)
Theorem sort_manifest_again (self : t) (entries out : list Entry) :
  process self entries = Ok out → process self out = Ok out.
Proof.
  intros (keyed & ks & Hkeyed & Hks & -> & Hall)%process_Ok.
  unfold process. rewrite (with_keys_keyed _ _ Hall). simpl.
  by rewrite (sorted_again _ _ _ Hks).
Qed.

Lemma with_keys_present (self : t) (entries : list Entry) :
  Forall (λ x, is_Some (x !! attribute_sort_by self)) entries →
  ∃ keyed, with_keys self entries = Ok keyed.
Proof.
  induction 1 as [|x entries [k Hk] _ [keyed IH]]; [by eexists|]. simpl.
  rewrite (proj2 (getitem_Ok _ _ _) Hk). simpl. rewrite IH. by eexists.
Qed.

(** A manifest that [process] sorts has keys of one kind. *)
Lemma sorted_keys_of_one_kind (self : t) (entries out : list Entry) :
  process self entries = Ok out →
  ∀ x y kx ky, x ∈ entries → y ∈ entries →
    x !! attribute_sort_by self = Some kx →
    y !! attribute_sort_by self = Some ky →
    is_str kx = is_str ky.
Proof.
  intros (keyed & ks & Hkeyed & Hks & -> & Hall)%process_Ok.
  destruct (sorted_spec _ _ _ Hks) as (Hperm & Hsorted & _).
  apply with_keys_Ok in Hkeyed as [<- _].
  intros x y kx ky Hx Hy Hkx Hky.
  rewrite <- Hperm in Hx, Hy.
  apply list_elem_of_fmap in Hx as ([kx' x'] & -> & Hx).
  apply list_elem_of_fmap in Hy as ([ky' y'] & -> & Hy).
  rewrite Forall_forall in Hall.
  pose proof (Hall _ Hx) as Hx'. pose proof (Hall _ Hy) as Hy'.
  unfold keyed_by in Hx', Hy'. simpl in *.
  assert (kx' = kx) as -> by congruence.
  assert (ky' = ky) as -> by congruence.
  apply list_elem_of_lookup in Hx as [i Hi], Hy as [j Hj].
  destruct (decide (i = j)) as [->|Hne]; [congruence|].
  assert (Hcmp : key_le (kx, x') (ky, y') ∨ key_le (ky, y') (kx, x')).
  { destruct (decide (i < j)).
    - pose proof (sorted_lookup _ _ Hsorted i j _ _ ltac:(done) Hi Hj) as H.
      destruct (descending self); [by right | by left].
    - pose proof (sorted_lookup _ _ Hsorted j i _ _ ltac:(lia) Hj Hi) as H.
      destruct (descending self); [by left | by right]. }
  unfold key_le in Hcmp. simpl in Hcmp.
  destruct Hcmp as [H|H]; [symmetry|]; apply lt_defined; by eexists.
Qed.

(** X24. SortManifest fails with [KeyError] as soon as one entry lacks the
    sort attribute, and with [TypeError] when all entries have it but one
    key is a string and another a number; it succeeds when all keys are
    strings or all are numbers.  When it fails nothing is written. *)
Theorem sort_manifest_errors (self : t) (entries : list Entry) :
  (Exists (λ x, x !! attribute_sort_by self = None) entries →
   process self entries = Raise (KeyError (attribute_sort_by self)))
  ∧ (Forall (λ x, is_Some (x !! attribute_sort_by self)) entries →
     (∃ x y s n, x ∈ entries ∧ y ∈ entries
        ∧ x !! attribute_sort_by self = Some (VStr s)
        ∧ y !! attribute_sort_by self = Some n ∧ is_str n = false) →
     process self entries = Raise TypeError)
  ∧ (∀ kind,
       Forall (λ x, ∃ k, x !! attribute_sort_by self = Some k
                         ∧ is_str k = kind) entries →
       ∃ out, process self entries = Ok out).
Proof.
  split; [|split].
  - intros Hex. unfold process. by rewrite with_keys_missing.
  - intros Hall (x & y & s & n & Hx & Hy & Hkx & Hky & Hn).
    destruct (process self entries) as [out|e] eqn:Hp.
    + pose proof (sorted_keys_of_one_kind self entries out Hp x y _ _
                    Hx Hy Hkx Hky) as Hkind.
      simpl in Hkind. congruence.
    + f_equal. unfold process in Hp.
      destruct (with_keys_present _ _ Hall) as [keyed Hk].
      rewrite Hk in Hp. simpl in Hp.
      destruct (sorted keyed (descending self)) eqn:Hs; simpl in Hp; [done|].
      injection Hp as <-. by apply sorted_raises in Hs.
  - intros kind Hall. unfold process.
    destruct (with_keys_defined _ _ _ Hall) as (keyed & -> & Hkind). simpl.
    destruct (sorted_defined keyed (descending self) kind Hkind) as [ks ->].
    by eexists.
Qed.

Lemma sort_manifest_sorted_witness :
  [utterance (py "b") 5; utterance (py "a") 2; utterance (py "c") 2]
    ≡ₚ manifest_durations
  ∧ ∀ i j x y, i < j →
      [utterance (py "b") 5; utterance (py "a") 2; utterance (py "c") 2] !! i
        = Some x →
      [utterance (py "b") 5; utterance (py "a") 2; utterance (py "c") 2] !! j
        = Some y →
      ∃ kx ky,
        x !! py "duration" = Some kx ∧ y !! py "duration" = Some ky
        ∧ lt kx ky = Ok false.
Proof.
  apply (sort_manifest_sorted (sort_by_duration true) manifest_durations).
  reflexivity.
Defined.


Lemma sort_manifest_again_witness :
  process (sort_by_duration true)
    [utterance (py "b") 5; utterance (py "a") 2; utterance (py "c") 2]
  = Ok [utterance (py "b") 5; utterance (py "a") 2; utterance (py "c") 2].
Proof.
  apply (sort_manifest_again (sort_by_duration true) manifest_durations).
  reflexivity.
Defined.

Lemma sort_manifest_errors_witness :
  process (sort_by_duration true) (data_entry_a :: manifest_durations)
    = Raise (KeyError (py "duration"))
  ∧ process (sort_by_duration true)
      ({[py "duration" := VStr (py "7.5")]} :: manifest_durations)
    = Raise TypeError
  ∧ ∃ out, process (sort_by_duration true) manifest_durations = Ok out.
Proof.
  split; [|split].
  - apply (proj1 (sort_manifest_errors (sort_by_duration true)
                    (data_entry_a :: manifest_durations))).
    by left.
  - apply (proj1 (proj2 (sort_manifest_errors (sort_by_duration true)
             ({[py "duration" := VStr (py "7.5")]} :: manifest_durations)))).
    + repeat constructor; by eexists.
    + exists {[py "duration" := VStr (py "7.5")]}, (utterance (py "a") 2),
        (py "7.5"), (VNum 2).
      split; [by left|]. split; [by right; left|]. done.
  - apply (proj2 (proj2 (sort_manifest_errors (sort_by_duration true)
                           manifest_durations)) false).
    repeat constructor; by eexists.
Defined.

End SortFacts.

(** ** KeepOnlySpecifiedFields *)

Module KeepOnlyFacts.
Import KeepOnlySpecifiedFields.

Lemma comprehension_Ok (fields : list str) (line acc out : Entry) :
  comprehension fields line acc = Ok out →
  has_fields fields line
  ∧ ∀ k, out !! k = if decide (k ∈ fields) then line !! k else acc !! k.
Proof.
  revert acc. induction fields as [|f fields IH]; intros acc;
    cbn [comprehension].
  - intros [= <-]. split; [by intros ? ?%elem_of_nil|].
    intros k. by rewrite decide_False by apply not_elem_of_nil.
  - intros (v & Hv%getitem_Ok & (Hall & Hout)%IH)%bind_Ok. split.
    + intros g [->|Hg]%elem_of_cons; [by eexists | by apply Hall].
    + intros k. rewrite Hout.
      destruct (decide (k ∈ fields)) as [Hk|Hk].
      * by rewrite decide_True by (by right).
      * destruct (decide (k = f)) as [->|Hne].
        -- rewrite lookup_insert_eq. by rewrite decide_True by (by left).
        -- rewrite lookup_insert_ne by done.
           rewrite decide_False; [done|]. by intros [?|?]%elem_of_cons.
Qed.

Lemma comprehension_defined (fields : list str) (line acc : Entry) :
  has_fields fields line → ∃ out, comprehension fields line acc = Ok out.
Proof.
  revert acc. induction fields as [|f fields IH]; intros acc Hall; simpl.
  - by eexists.
  - destruct (Hall f) as [v Hv]; [by left|].
    rewrite (proj2 (getitem_Ok _ _ _) Hv). simpl. apply IH.
    intros g Hg. apply Hall. by right.
Qed.

Lemma comprehension_missing (pre post : list str) (f : str) (line acc : Entry) :
  has_fields pre line → line !! f = None →
  comprehension (pre ++ f :: post) line acc = Raise (KeyError f).
Proof.
  revert acc. induction pre as [|g pre IH]; intros acc Hpre Hf; simpl.
  - unfold getitem. by rewrite Hf.
  - destruct (Hpre g) as [v Hv]; [by left|].
    rewrite (proj2 (getitem_Ok _ _ _) Hv). simpl. apply IH; [|done].
    intros h Hh. apply Hpre. by right.
Qed.

Lemma new_line_Ok (self : t) (line out : Entry) :
  new_line self line = Ok out →
  has_fields (fields_to_keep self) line
  ∧ ∀ k, out !! k
         = if decide (k ∈ fields_to_keep self) then line !! k else None.
Proof.
  intros [Hall Hout]%comprehension_Ok. split; [done|].
  intros k. rewrite Hout. by rewrite lookup_empty.
Qed.

(** What has been written stays written. *)
Lemma for_lines_acc (self : t) (fin fout : list Entry) :
  for_lines self fin fout
  = ((fout ++ (for_lines self fin []).1), (for_lines self fin []).2).
Proof.
  revert fout. induction fin as [|line fin IH]; intros fout; simpl.
  - by rewrite app_nil_r.
  - destruct (new_line self line) as [new|e]; simpl.
    + rewrite (IH (fout ++ [new])), (IH [new]). simpl.
      by rewrite <- (assoc_L (++)).
    + by rewrite app_nil_r.
Qed.

Lemma process_cons (self : t) (line : Entry) (fin : list Entry) :
  process self (line :: fin)
  = match new_line self line with
    | Ok new => (new :: (process self fin).1, (process self fin).2)
    | Raise e => ([], Some e)
    end.
Proof.
  unfold process. simpl. destruct (new_line self line); [|done].
  by rewrite for_lines_acc.
Qed.

(** X25. When KeepOnlySpecifiedFields finishes without an exception it has
    written one line per input line, in the same order; the fields of each
    written line are exactly the configured ones, with the values they have
    in the input line. *)
Theorem keep_only_projection (self : t) (fin fout : list Entry) :
  process self fin = (fout, None) →
  length fout = length fin
  ∧ ∀ i line, fin !! i = Some line →
      ∃ new, fout !! i = Some new
        ∧ dom new = list_to_set (fields_to_keep self)
        ∧ ∀ k, k ∈ fields_to_keep self → new !! k = line !! k.
Proof.
  revert fout. induction fin as [|line fin IH]; intros fout.
  - intros [= <-]. split; [done|]. intros i line. by rewrite lookup_nil.
  - rewrite process_cons.
    destruct (new_line self line) as [new|e] eqn:Hnew; [|done].
    destruct (process self fin) as [rest err] eqn:Hrest. simpl.
    intros [= <- ->]. destruct (IH rest eq_refl) as [Hlen Hlines].
    split; [simpl; by rewrite Hlen|].
    intros [|i] line'; simpl; [|apply Hlines].
    intros [= <-]. exists new. split; [done|].
    apply new_line_Ok in Hnew as [Hall Hnew]. split.
    + apply set_eq. intros k. rewrite elem_of_dom, elem_of_list_to_set, Hnew.
      destruct (decide (k ∈ fields_to_keep self)) as [Hk|Hk].
      * split; [done|]. intros _. by apply Hall.
      * split; [by intros [? [=]]|done].
    + intros k Hk. by rewrite Hnew, decide_True.
Qed.


Lemma keep_only_projection_witness :
  length [data_entry_a2; data_entry_a] = length [data_entry_a2; data_entry_ab]
  ∧ ∀ i line, [data_entry_a2; data_entry_ab] !! i = Some line →
      ∃ new, [data_entry_a2; data_entry_a] !! i = Some new
        ∧ dom new = list_to_set [py "a"]
        ∧ ∀ k, k ∈ [py "a"] → new !! k = line !! k.
Proof.
  apply (keep_only_projection (mk [py "a"]) [data_entry_a2; data_entry_ab]).
  reflexivity.
Defined.

Lemma process_defined (self : t) (fin : list Entry) :
  Forall (has_fields (fields_to_keep self)) fin →
  ∃ fout, process self fin = (fout, None).
Proof.
  induction 1 as [|line fin Hline _ [fout IH]]; [by eexists|].
  rewrite process_cons.
  destruct (comprehension_defined _ line ∅ Hline) as [new Hnew].
  unfold new_line. rewrite Hnew, IH. by eexists.
Qed.

Lemma process_app (self : t) (before after : list Entry) (written : list Entry) :
  process self before = (written, None) →
  process self (before ++ after)
  = (written ++ (process self after).1, (process self after).2).
Proof.
  revert written. induction before as [|line before IH]; intros written.
  - intros [= <-]. simpl. by destruct (process self after).
  - rewrite <- app_comm_cons, !process_cons.
    destruct (new_line self line); [|done].
    destruct (process self before) as [w err] eqn:Hw. simpl.
    intros [= <- ->]. by rewrite (IH w).
Qed.

(** X26. When a line lacks a configured field, KeepOnlySpecifiedFields
    raises [KeyError] for the first such field in the configured order; the
    lines before the failing one have been written, the failing line and
    those after it have not. *)
Theorem keep_only_missing_field (self : t) (before after : list Entry)
    (line : Entry) (pre post : list str) (field : str) :
  fields_to_keep self = pre ++ field :: post →
  Forall (has_fields (fields_to_keep self)) before →
  has_fields pre line → line !! field = None →
  ∃ written,
    process self (before ++ line :: after) = (written, Some (KeyError field))
    ∧ process self before = (written, None).
Proof.
  intros Hfields Hbefore Hpre Hfield.
  destruct (process_defined self before Hbefore) as [written Hw].
  exists written. split; [|done].
  rewrite (process_app _ _ _ _ Hw), process_cons. unfold new_line.
  rewrite Hfields, comprehension_missing by done. simpl.
  by rewrite app_nil_r.
Qed.

Lemma keep_only_missing_field_witness :
  ∃ written,
    process (mk [py "a"; py "b"])
      ([data_entry_ab] ++ data_entry_a :: [data_entry_ab])
    = (written, Some (KeyError (py "b")))
    ∧ process (mk [py "a"; py "b"]) [data_entry_ab] = (written, None).
Proof.
  apply (keep_only_missing_field (mk [py "a"; py "b"]) [data_entry_ab]
           [data_entry_ab] data_entry_a [py "a"] [] (py "b")).
  - reflexivity.
  - constructor; [|constructor].
    intros f [->|[->|[]%elem_of_nil]%elem_of_cons]%elem_of_cons; by eexists.
  - intros f ->%list_elem_of_singleton. by eexists.
  - reflexivity.
Defined.

Lemma comprehension_agree (fields : list str) (line line' acc : Entry) :
  (∀ f, f ∈ fields → line' !! f = line !! f) →
  comprehension fields line' acc = comprehension fields line acc.
Proof.
  revert acc. induction fields as [|f fields IH]; intros acc Hagree; [done|].
  simpl. unfold getitem. rewrite (Hagree f) by (by left).
  destruct (line !! f); simpl; [|done].
  apply IH. intros g Hg. apply Hagree. by right.
Qed.

(** X27. Projecting a manifest on a list of fields and then on a sublist of
    it gives the same result as projecting on the sublist at once; in
    particular projecting twice on the same fields is projecting once. *)
Theorem keep_only_narrowing (narrow wide : t) (fin mid : list Entry) :
  (∀ f, f ∈ fields_to_keep narrow → f ∈ fields_to_keep wide) →
  process wide fin = (mid, None) →
  process narrow mid = process narrow fin.
Proof.
  intros Hsub. revert mid. induction fin as [|line fin IH]; intros mid.
  - by intros [= <-].
  - rewrite process_cons.
    destruct (new_line wide line) as [new|] eqn:Hnew; [|done].
    destruct (process wide fin) as [rest err] eqn:Hrest. simpl.
    intros [= <- ->]. rewrite !process_cons, (IH rest eq_refl).
    apply new_line_Ok in Hnew as [_ Hnew].
    unfold new_line. rewrite (comprehension_agree _ line new); [done|].
    intros f Hf. by rewrite Hnew, decide_True by (by apply Hsub).
Qed.

Lemma keep_only_narrowing_witness :
  process (mk [py "a"]) [{[py "a" := VNum 1; py "b" := VNum 1]}]
  = process (mk [py "a"]) [data_entry_abc].
Proof.
  apply (keep_only_narrowing (mk [py "a"]) (mk [py "a"; py "b"])
           [data_entry_abc]).
  - intros f ->%list_elem_of_singleton. by left.
  - reflexivity.
Defined.

End KeepOnlyFacts.

(** ** ConvertDatasetToTar and the tokenizer corpus *)

Module TarCommand.
Import ConvertDatasetToTar.

Section WithOs.
Variable path_join : list str → str.
Variable path_exists : str → bool.
Variable sys_executable : str.
Variable str_of_float : Q → str.

(** X28. The command list of ConvertDatasetToTar consists of sixteen fixed
    arguments, then ["--shuffle"] exactly when [shuffle] is true, then
    ["--sort_in_shards"] exactly when [sort_in_shards] is true; its first
    element is the configured executable if that path exists and the
    running interpreter otherwise. *)
Theorem tar_command_flags (self : t) :
  let command :=
    get_command_to_run path_join path_exists sys_executable str_of_float self in
  ∃ fixed,
    length fixed = 16
    ∧ command
      = fixed ++ (if shuffle self then [py "--shuffle"] else [])
              ++ (if sort_in_shards self then [py "--sort_in_shards"] else [])
    ∧ (py "--shuffle" ∈ drop 16 command ↔ shuffle self = true)
    ∧ (py "--sort_in_shards" ∈ drop 16 command ↔ sort_in_shards self = true)
    ∧ command !! 0
      = Some (if path_exists (nemo_executable self) then nemo_executable self
              else sys_executable).
Proof.
  unfold get_command_to_run. cbv zeta.
  match goal with
  | |- context [if shuffle self then ?c ++ _ else _] => set (command := c)
  end.
  exists (str_of str_of_float <$> command). split; [reflexivity|].
  assert (Hne : py "--shuffle" ≠ py "--sort_in_shards") by discriminate.
  split; [|split; [|split]].
  - destruct (shuffle self), (sort_in_shards self);
      by rewrite ?fmap_app, ?app_nil_r.
  - destruct (shuffle self), (sort_in_shards self); simpl;
      rewrite ?elem_of_cons, ?elem_of_nil; split; try done; intuition congruence.
  - destruct (shuffle self), (sort_in_shards self); simpl;
      rewrite ?elem_of_cons, ?elem_of_nil; split; try done; intuition congruence.
  - unfold command, resolved_executable.
    by destruct (shuffle self), (sort_in_shards self),
      (path_exists (nemo_executable self)).
Qed.

End WithOs.
End TarCommand.

Module CorpusFacts.
Import TokenizerCorpus.

Section WithFiles.
Variable upper : char → str.
Variable glob : str → list str.
Variable lines_of : str → list str.

Lemma write_texts_all (manifest : list Entry) (texts : list str) (document : str) :
  Forall2 (λ item text, item !! py "text" = Some (VStr text)) manifest texts →
  write_texts manifest document
  = (document ++ concat ((λ text, text ++ [10%N]) <$> texts), None).
Proof.
  intros Hall. revert document.
  induction Hall as [|item text manifest texts Hitem _ IH]; intros document.
  - simpl. by rewrite app_nil_r.
  - cbn [write_texts]. rewrite (proj2 (getitem_Ok _ _ _) Hitem), IH.
    rewrite fmap_cons. cbn [concat]. by rewrite !(assoc_L (++)).
Qed.

Lemma write_texts_app (before after : list Entry) (document : str) :
  write_texts (before ++ after) document
  = match write_texts before document with
    | (document, None) => write_texts after document
    | stopped => stopped
    end.
Proof.
  revert document. induction before as [|item before IH]; intros document.
  - done.
  - cbn [app write_texts].
    destruct (getitem item (py "text")) as [[]|]; first [done | apply IH].
Qed.

Lemma insert_files_into_doc_eq (document corpus : str) (f : str → str) :
  insert_files_into_doc glob lines_of document corpus f
  = document ++ concat (f <$> concat (lines_of <$> glob corpus)).
Proof.
  unfold insert_files_into_doc. generalize (glob corpus). intros files.
  revert document. induction files as [|file files IH]; intros document.
  - simpl. by rewrite app_nil_r.
  - cbn [foldl]. rewrite IH. rewrite fmap_cons. cbn [concat].
    rewrite fmap_app, concat_app, (assoc_L (++)). f_equal.
    generalize (lines_of file). intros lines. revert document.
    induction lines as [|line lines IHl]; intros document.
    + simpl. by rewrite app_nil_r.
    + cbn [foldl]. rewrite IHl. rewrite fmap_cons. cbn [concat].
      by rewrite (assoc_L (++)).
Qed.

Lemma elem_of_concat (x : char) (ls : list str) :
  x ∈ concat ls → ∃ l, l ∈ ls ∧ x ∈ l.
Proof.
  induction ls as [|l ls IH]; simpl; [by intros ?%elem_of_nil|].
  intros [Hx | (l' & Hl' & Hx)%IH]%elem_of_app.
  - exists l. split; [by left|done].
  - exists l'. split; [by right|done].
Qed.

(** X29. When every manifest item has a string [text], the corpus file
    holds each text followed by a line feed, in manifest order and exactly
    as it is in the manifest (the symbols to ignore are not removed from
    it), followed, if an extra corpus is configured, by the lines of the
    matched files after [clear_text]; none of the symbols to ignore occurs
    in that appended part. *)
Theorem corpus_document (self : CreateTokenizer.t) (manifest : list Entry)
    (texts : list str) :
  Forall2 (λ item text, item !! py "text" = Some (VStr text)) manifest texts →
  ∃ appended,
    document_txt upper glob lines_of self manifest
    = (concat ((λ text, text ++ [10%N]) <$> texts) ++ appended, None)
    ∧ (CreateTokenizer.extra_corpus self = [] → appended = [])
    ∧ (CreateTokenizer.extra_corpus self ≠ [] →
       appended
       = concat ((λ line,
                    RemoveExtraSymbols.clear_text upper line
                      (CreateTokenizer.ignore_symbols self)
                      (CreateTokenizer.target_language self))
                 <$> concat (lines_of
                             <$> glob (CreateTokenizer.extra_corpus self))))
    ∧ ∀ x, x ∈ CreateTokenizer.ignore_symbols self → x ∉ appended.
Proof.
  intros Hall. unfold document_txt.
  rewrite (write_texts_all _ _ _ Hall), app_nil_l.
  case_bool_decide as Hextra.
  - eexists. split; [by rewrite insert_files_into_doc_eq|].
    split; [done|]. split; [done|].
    intros x Hx (line & Hin & Hxl)%elem_of_concat.
    apply list_elem_of_fmap in Hin as (raw & -> & _).
    by apply (StripSymbols.clear_text_removes upper raw _
                (CreateTokenizer.target_language self)) in Hx.
  - exists []. rewrite app_nil_r. split; [done|]. split; [done|].
    split; [done|]. intros x _. apply not_elem_of_nil.
Qed.

(** X30. When a manifest item has no [text], building the corpus fails with
    [KeyError "text"]; the corpus file then holds the texts of the items
    before it and nothing of the extra corpus. *)
Theorem corpus_missing_text (self : CreateTokenizer.t)
    (before after : list Entry) (item : Entry) (texts : list str) :
  Forall2 (λ item text, item !! py "text" = Some (VStr text)) before texts →
  item !! py "text" = None →
  document_txt upper glob lines_of self (before ++ item :: after)
  = (concat ((λ text, text ++ [10%N]) <$> texts), Some (KeyError (py "text"))).
Proof.
  intros Hall Hitem. unfold document_txt.
  rewrite write_texts_app, (write_texts_all _ _ _ Hall), app_nil_l.
  cbn [write_texts]. unfold getitem. by rewrite Hitem.
Qed.

End WithFiles.

Lemma corpus_document_witness :
  ∃ appended,
    document_txt RemoveExtraSymbols.ascii_upper one_file one_line
      tokenizer_with_corpus manifest_texts
    = (concat ((λ text, text ++ [10%N]) <$> [py "a,b"; py "c"]) ++ appended,
       None)
    ∧ (CreateTokenizer.extra_corpus tokenizer_with_corpus = [] → appended = [])
    ∧ (CreateTokenizer.extra_corpus tokenizer_with_corpus ≠ [] →
       appended
       = concat ((λ line,
                    RemoveExtraSymbols.clear_text RemoveExtraSymbols.ascii_upper
                      line (py ",") [])
                 <$> concat (one_line <$> one_file (py "extra/*.txt"))))
    ∧ ∀ x, x ∈ py "," → x ∉ appended.
Proof.
  apply (corpus_document RemoveExtraSymbols.ascii_upper one_file one_line
           tokenizer_with_corpus manifest_texts [py "a,b"; py "c"]).
  repeat constructor.
Defined.

Lemma corpus_missing_text_witness :
  document_txt RemoveExtraSymbols.ascii_upper one_file one_line
    tokenizer_with_corpus (manifest_texts ++ data_entry_a :: manifest_texts)
  = (concat ((λ text, text ++ [10%N]) <$> [py "a,b"; py "c"]),
     Some (KeyError (py "text"))).
Proof.
  apply (corpus_missing_text RemoveExtraSymbols.ascii_upper one_file one_line
           tokenizer_with_corpus manifest_texts manifest_texts data_entry_a
           [py "a,b"; py "c"]).
  - repeat constructor.
  - reflexivity.
Defined.

End CorpusFacts.
